(** * Gas Town: addressing, nudge delivery, mail routing and the wisp ledger

    A shallow embedding of
      - [internal/cmd/session.go]      ([parseAddress], [getSessionManager]),
      - [internal/cmd/rig_helpers.go]  ([runNudge]),
      - [internal/mail/router.go]      ([Send], [notifyRecipient],
                                        [addressToSessionID]),
      - [docs/wisp-architecture.md]    (the storage behaviour of wisps),
    together with the properties the specification states about them.

    Go strings are byte sequences; they are modelled as [string] (a list of
    [ascii], i.e. of bytes).  Go's [error] values are modelled by the
    inductive type [error], whose constructors keep the structure of the
    messages built with [fmt.Errorf]. *)

From Stdlib Require Import String Ascii List Bool Arith ZArith Lia DecimalString.
Import ListNotations.
Open Scope string_scope.

(* ================================================================== *)
(** * The functions of Go's [strings] and [fmt] packages that the code uses *)
(* ================================================================== *)

Module GoStrings.

(** [strings.Cut(s, sep)] for a one-byte separator: the text before and
    after the first occurrence of [sep], or [None] when there is none. *)
Fixpoint Cut (s : string) (sep : ascii) : option (string * string) :=
  match s with
  | EmptyString => None
  | String c rest =>
      if Ascii.eqb c sep then Some (EmptyString, rest)
      else match Cut rest sep with
           | Some (before, after) => Some (String c before, after)
           | None => None
           end
  end.

(** [strings.SplitN(s, sep, n)] for a one-byte separator and [n >= 0]:
    at most [n] substrings, the last one being the unsplit remainder. *)
Fixpoint SplitN (s : string) (sep : ascii) (n : nat) : list string :=
  match n with
  | 0 => []
  | 1 => [s]
  | S n' =>
      match Cut s sep with
      | None => [s]
      | Some (before, after) => before :: SplitN after sep n'
      end
  end.

(** [strings.HasPrefix(s, prefix)]. *)
Fixpoint HasPrefix (s pre : string) {struct pre} : bool :=
  match pre, s with
  | EmptyString, _ => true
  | String _ _, EmptyString => false
  | String p pre', String c s' => Ascii.eqb c p && HasPrefix s' pre'
  end.

(** [strings.TrimPrefix(s, prefix)]. *)
Definition TrimPrefix (s pre : string) : string :=
  if HasPrefix s pre then substring (String.length pre) (String.length s - String.length pre) s
  else s.

(** [strings.Contains(s, sep)] for a one-byte [sep]. *)
Definition Contains (s : string) (sep : ascii) : bool :=
  match Cut s sep with Some _ => true | None => false end.

(** [strings.Join(elems, sep)]. *)
Fixpoint Join (elems : list string) (sep : string) : string :=
  match elems with
  | [] => ""
  | [e] => e
  | e :: rest => e ++ sep ++ Join rest sep
  end.

(** [fmt.Sprintf("%d", n)]. *)
Definition Sprintf_d (n : Z) : string := NilZero.string_of_int (Z.to_int n).

(** The byte [c] occurs in [s]. *)
Fixpoint occurs (c : ascii) (s : string) : Prop :=
  match s with
  | EmptyString => False
  | String d rest => d = c \/ occurs c rest
  end.

End GoStrings.
Import GoStrings.

Definition slash : ascii := "/"%char.
Definition dash : ascii := "-"%char.

(* ================================================================== *)
(** * Errors *)
(* ================================================================== *)

(** Go [error] values.  [None : option error] is Go's [nil]. *)
Inductive error : Type :=
  | ErrInvalidFormat (addr : string)
      (* fmt.Errorf("invalid address format: expected 'rig/polecat', got '%s'", addr) *)
  | ErrSessionNotFound (target : string)
      (* fmt.Errorf("session %q not found", target) *)
  | ErrRigNotFound (rigName : string)
      (* fmt.Errorf("rig '%s' not found", rigName) *)
  | ErrNoMessage
      (* fmt.Errorf("no message provided (use -m or -f)") *)
  | ErrWrap (ctx : string) (err : error)
      (* fmt.Errorf(ctx + ": %w", err) *)
  | ErrNew (msg : string).
      (* errors.New(msg), and the errors of the packages outside this file *)

(* ================================================================== *)
(** * [internal/cmd/session.go]: parseAddress *)
(* ================================================================== *)

Definition is_empty (s : string) : bool :=
  match s with EmptyString => true | _ => false end.

(** [parseAddress(addr) (rigName, polecatName string, err error)]. *)
Definition parseAddress (addr : string) : string * string * option error :=
  match SplitN addr slash 2 with
  | [p0; p1] =>
      if is_empty p0 || is_empty p1
      then ("", "", Some (ErrInvalidFormat addr))
      else (p0, p1, None)
  | _ => ("", "", Some (ErrInvalidFormat addr))
  end.

(* ================================================================== *)
(** * [internal/mail/router.go]: addressToSessionID *)
(* ================================================================== *)

(** [addressToSessionID(address)]: the tmux session of a mail address; the
    empty string when the format is not recognised. *)
Definition addressToSessionID (address : string) : string :=
  if HasPrefix address "mayor" then "gt-mayor"
  else
    match SplitN address slash 2 with
    | [rig; target] =>
        if is_empty target then ""
        else "gt-" ++ rig ++ "-" ++ target
    | _ => ""
    end.


(* ================================================================== *)
(** * The outside world: terminal backend, processes, logs *)
(* ================================================================== *)

(** What a run prints on standard output. *)
Inductive output : Type :=
  | OutDeaconSkipped                       (* "○ Deacon not running, nudge skipped" *)
  | OutNudgedDeacon                        (* "✓ Nudged deacon" *)
  | OutNudged (rigName polecatName : string) (* "✓ Nudged %s/%s" *)
  | OutNudgedSession (target : string).    (* "✓ Nudged %s" *)

(** The calls a run makes to the outside world, in the order it makes them. *)
Inductive effect : Type :=
  | HasSessionQuery (session : string)             (* tmux has-session *)
  | SendLiteralText (session text : string)        (* tmux send-keys -l *)
  | SettleDelay (ms : nat)                         (* time.Sleep *)
  | SendKeyEnter (session : string)                (* tmux send-keys Enter *)
  | NotificationBanner (session from subject : string)
  | Exec (dir name : string) (args : list string)  (* exec.Command(...).Run() *)
  | Stdout (out : output)
  | LogNudge (townRoot target message : string)
  | LogFeed (sender rigName target message : string).

(** A computation that calls the outside world and may fail: the calls
    made so far, and an error or a value. *)
Definition M (A : Type) : Type := list effect * (error + A).

Definition ret {A : Type} (a : A) : M A := ([], inr a).

Definition fail {A : Type} (e : error) : M A := ([], inl e).

Definition bind {A B : Type} (m : M A) (k : A -> M B) : M B :=
  match m with
  | (t, inl e) => (t, inl e)
  | (t, inr a) => let (t', r) := k a in ((t ++ t')%list, r)
  end.

Declare Scope go_scope.
Delimit Scope go_scope with go.
Notation "x <- m ;; k" := (bind m (fun x => k))
  (at level 61, m at next level, right associativity) : go_scope.
Notation "m ;;; k" := (bind m (fun _ => k))
  (at level 61, right associativity) : go_scope.

(** One call to the outside world with its outcome. *)
Definition call {A : Type} (e : effect) (outcome : error + A) : M A :=
  ([e], outcome).

Definition emit (e : effect) : M unit := ([e], inr tt).

(** [if err != nil { return fmt.Errorf(ctx + ": %w", err) }]. *)
Definition wrap {A : Type} (ctx : string) (m : M A) : M A :=
  match m with
  | (t, inl e) => (t, inl (ErrWrap ctx e))
  | (t, inr a) => (t, inr a)
  end.

(** [_ = f()]: the error of [f], if any, is dropped. *)
Definition discard {A : Type} (m : M A) : M unit := (fst m, inr tt).

(** The calls a computation made, and the [error] it returned. *)
Definition trace {A : Type} (m : M A) : list effect := fst m.

Definition returned {A : Type} (m : M A) : option error :=
  match snd m with inl e => Some e | inr _ => None end.

(** An outcome reported as a Go [error]. *)
Definition of_err (r : option error) : error + unit :=
  match r with Some e => inl e | None => inr tt end.

(** The terminal-session backend ([internal/tmux], outside this file): the
    outcome of each request, as the multiplexer decides it. *)
Record Tmux : Type := {
  has_session : string -> error + bool;
  send_literal_text : string -> string -> option error;
  send_key_enter : string -> option error;
  send_notification_banner : string -> string -> string -> option error
}.

Definition HasSession (t : Tmux) (session : string) : M bool :=
  call (HasSessionQuery session) (has_session t session).

(** Modelled from the spec: [tmux.NudgeSession] of [internal/tmux], which
    the callers below use and whose source is not available.  The delivery
    protocol is: submit the text as a literal paste into the target session;
    wait the fixed settle interval of 500 ms; submit a single Enter keystroke
    as its own operation (the help text of the nudge command lists the same
    three steps).  The nudge fails when a submission fails. *)
Definition NudgeSession (t : Tmux) (session message : string) : M unit :=
  let pasted := send_literal_text t session message in
  let entered := send_key_enter t session in
  ([SendLiteralText session message; SettleDelay 500; SendKeyEnter session],
   match pasted with
   | Some e => inl e
   | None => of_err entered
   end).

Definition SendNotificationBanner (t : Tmux) (session from subject : string)
  : M unit :=
  call (NotificationBanner session from subject)
       (of_err (send_notification_banner t session from subject)).

(* ================================================================== *)
(** * [internal/cmd]: session managers and the nudge command *)
(* ================================================================== *)

(** The role of the calling process, as [GetRole] reports it. *)
Inductive Role : Type :=
  | RoleMayor | RoleCrew | RolePolecat | RoleWitness | RoleRefinery | RoleDeacon
  | RoleOther (name : string).

Record RoleInfo : Type := {
  role_Role : Role;
  role_Rig : string;
  role_Polecat : string
}.

Record Rig : Type := {
  rig_Name : string;
  rig_Polecats : list string
}.

(** A [session.Manager]: the backend and the rig it manages. *)
Record Manager : Type := {
  mgr_tmux : Tmux;
  mgr_rig : Rig
}.

(** What the command package takes from its surroundings: the ambient role,
    the workspace, the rig registry, and the session naming of the
    [session] package. *)
Record CmdEnv : Type := {
  env_tmux : Tmux;                                     (* tmux.NewTmux() *)
  GetRole : error + RoleInfo;
  FindFromCwdOrError : error + string;                 (* workspace *)
  FindFromCwd : string * option error;                 (* workspace *)
  GetRig : string -> string -> error + Rig;            (* rig manager of a town root *)
  SessionName : Manager -> string -> string;           (* session.Manager.SessionName *)
  crewSessionName : string -> string -> string
}.

(** The Deacon session, as the help text of the nudge command names it. *)
Definition DeaconSessionName : string := "gt-deacon".

(** [getSessionManager(rigName)]; a rigs configuration that does not load
    is replaced by the empty one, so only the lookup of the rig can fail. *)
Definition getSessionManager (env : CmdEnv) (rigName : string) : M Manager :=
  match FindFromCwdOrError env with
  | inl err => fail (ErrWrap "not in a Gas Town workspace" err)
  | inr townRoot =>
      match GetRig env townRoot rigName with
      | inl _ => fail (ErrRigNotFound rigName)
      | inr r => ret {| mgr_tmux := env_tmux env; mgr_rig := r |}
      end
  end.

(** The sender tag of [runNudge]: [unknown] when the role is not known. *)
Definition senderOf (env : CmdEnv) : string :=
  match GetRole env with
  | inl _ => "unknown"
  | inr roleInfo =>
      match role_Role roleInfo with
      | RoleMayor => "mayor"
      | RoleCrew => role_Rig roleInfo ++ "/crew/" ++ role_Polecat roleInfo
      | RolePolecat => role_Rig roleInfo ++ "/" ++ role_Polecat roleInfo
      | RoleWitness => role_Rig roleInfo ++ "/witness"
      | RoleRefinery => role_Rig roleInfo ++ "/refinery"
      | RoleDeacon => "deacon"
      | RoleOther name => name
      end
  end.

(** [if townRoot, err := workspace.FindFromCwd(); err == nil && townRoot != ""
     { LogNudge(townRoot, target, message) }]. *)
Definition logNudgeEvent (env : CmdEnv) (target message : string) : M unit :=
  match FindFromCwd env with
  | (townRoot, None) =>
      if negb (is_empty townRoot) then emit (LogNudge townRoot target message)
      else ret tt
  | (_, Some _) => ret tt
  end.

(** [parseAddress] as a step of a command. *)
Definition parsed (addr : string) : M (string * string) :=
  match parseAddress addr with
  | (rigName, polecatName, None) => ret (rigName, polecatName)
  | (_, _, Some err) => fail err
  end.

Local Open Scope go_scope.

(** [runNudge(cmd, args)] with [target = args[0]] and [message = args[1]]
    (the command takes exactly two arguments). *)
Definition runNudge (env : CmdEnv) (target message : string) : M unit :=
  let sender := senderOf env in
  let message := "[from " ++ sender ++ "] " ++ message in
  let t := env_tmux env in
  if target =? "deacon" then
    found <- wrap "checking deacon session" (HasSession t DeaconSessionName) ;;
    if negb found then
      emit (Stdout OutDeaconSkipped)
    else
      wrap "nudging deacon" (NudgeSession t DeaconSessionName message) ;;;
      emit (Stdout OutNudgedDeacon) ;;;
      logNudgeEvent env "deacon" message ;;;
      discard (emit (LogFeed sender "" "deacon" message))
  else if Contains target slash then
    addr <- parsed target ;;
    let (rigName, polecatName) := addr in
    sessionName <-
      (if HasPrefix polecatName "crew/" then
         ret (crewSessionName env rigName (TrimPrefix polecatName "crew/"))
       else
         mgr <- getSessionManager env rigName ;;
         ret (SessionName env mgr polecatName)) ;;
    wrap "nudging session" (NudgeSession t sessionName message) ;;;
    emit (Stdout (OutNudged rigName polecatName)) ;;;
    logNudgeEvent env target message ;;;
    discard (emit (LogFeed sender rigName target message))
  else
    found <- wrap "checking session" (HasSession t target) ;;
    if negb found then
      fail (ErrSessionNotFound target)
    else
      wrap "nudging session" (NudgeSession t target message) ;;;
      emit (Stdout (OutNudgedSession target)) ;;;
      logNudgeEvent env target message ;;;
      discard (emit (LogFeed sender "" target message)).

(* ================================================================== *)
(** * [internal/mail/router.go]: Send and notifyRecipient *)
(* ================================================================== *)

(** Modelled from the spec: the four priority levels of a message
    ([Message.priority: enum{Low, Normal, High, Urgent}]); the type is
    declared in a file of the mail package that is not available. *)
Inductive Priority : Type :=
  | PriorityLow | PriorityNormal | PriorityHigh | PriorityUrgent.

(** The fields of [Message] that the router reads.  [MessageType] is a
    string type. *)
Record Message : Type := {
  msg_From : string;
  msg_To : string;
  msg_Subject : string;
  msg_Body : string;
  msg_Priority : Priority;
  msg_Type : string;
  msg_ThreadID : string;
  msg_ReplyTo : string;
  msg_Pinned : bool
}.

(** What [cmd.Run()] leaves behind: its error and the two buffers. *)
Record CmdResult : Type := {
  cmd_err : option error;
  cmd_stdout : string;
  cmd_stderr : string
}.

(** What the router takes from its surroundings: the declarations of the
    mail package that live in other files, [strings.TrimSpace], and the
    outcome of running an external command in a directory. *)
Record MailEnv : Type := {
  addressToIdentity : string -> string;
  PriorityToBeads : Priority -> Z;
  TypeNotification : string;
  TrimSpace : string -> string;
  run : string -> string -> list string -> CmdResult
}.

Record Router : Type := {
  workDir : string;
  tmux : Tmux
}.

(** Go's [append(s, xs...)]. *)
Definition go_append {A : Type} (s xs : list A) : list A := List.app s xs.

(** The labels [Send] attaches: sender, thread, reply-to, message type. *)
Definition sendLabels (env : MailEnv) (msg : Message) : list string :=
  let fromIdentity := addressToIdentity env (msg_From msg) in
  let labels := ["from:" ++ fromIdentity] in
  let labels :=
    if negb (is_empty (msg_ThreadID msg))
    then go_append labels ["thread:" ++ msg_ThreadID msg] else labels in
  let labels :=
    if negb (is_empty (msg_ReplyTo msg))
    then go_append labels ["reply-to:" ++ msg_ReplyTo msg] else labels in
  let labels :=
    if negb (is_empty (msg_Type msg))
       && negb (msg_Type msg =? TypeNotification env)
    then go_append labels ["msg-type:" ++ msg_Type msg] else labels in
  labels.

(** The arguments of the [bd create] command that [Send] runs. *)
Definition sendArgs (env : MailEnv) (msg : Message) : list string :=
  let toIdentity := addressToIdentity env (msg_To msg) in
  let labels := sendLabels env msg in
  let args := ["create"; "--type"; "message"; "--assignee"; toIdentity;
               "--title"; msg_Subject msg; "-d"; msg_Body msg] in
  let beadsPriority := PriorityToBeads env (msg_Priority msg) in
  let args := go_append args ["--priority"; Sprintf_d beadsPriority] in
  let args :=
    if Nat.ltb 0 (List.length labels)
    then go_append args ["--labels"; Join labels ","] else args in
  go_append args ["--silent"].

(** [notifyRecipient(msg)]: a banner in the recipient's session when there
    is one; nothing, and no error, otherwise. *)
Definition notifyRecipient (r : Router) (msg : Message) : M unit :=
  let sessionID := addressToSessionID (msg_To msg) in
  if is_empty sessionID then ret tt
  else
    match HasSession (tmux r) sessionID with
    | (t, inr true) =>
        (t, inr tt) ;;;
        SendNotificationBanner (tmux r) sessionID (msg_From msg) (msg_Subject msg)
    | (t, _) => (t, inr tt)
    end.

(** [Send(msg)]: one [bd create]; then, best effort, a pin and a
    notification. *)
Definition Send (env : MailEnv) (r : Router) (msg : Message) : M unit :=
  let args := sendArgs env msg in
  let created := run env (workDir r) "bd" args in
  issueID <-
    call (Exec (workDir r) "bd" args)
         (match cmd_err created with
          | Some err =>
              let errMsg := TrimSpace env (cmd_stderr created) in
              if negb (is_empty errMsg) then inl (ErrNew errMsg)
              else inl (ErrWrap "sending message" err)
          | None => inr (TrimSpace env (cmd_stdout created))
          end) ;;
  (if msg_Pinned msg && negb (is_empty issueID) then
     discard (call (Exec (workDir r) "bd" ["pin"; issueID])
                   (of_err (cmd_err (run env (workDir r) "bd" ["pin"; issueID]))))
   else ret tt) ;;;
  discard (notifyRecipient r msg) ;;;
  ret tt.

Local Close Scope go_scope.

(** Some label of the set begins with [pre]. *)
Definition has_label (pre : string) (labels : list string) : Prop :=
  exists l, In l labels /\ HasPrefix l pre = true.

(** The [bd create] and the [bd pin] commands among the calls of a run. *)
Definition is_create (e : effect) : bool :=
  match e with
  | Exec _ name (sub :: _) => (name =? "bd") && (sub =? "create")
  | _ => false
  end.

Definition is_pin (e : effect) : bool :=
  match e with
  | Exec _ name (sub :: _) => (name =? "bd") && (sub =? "pin")
  | _ => false
  end.

(** The operations of the delivery protocol among the calls of a run. *)
Definition is_delivery (e : effect) : bool :=
  match e with
  | SendLiteralText _ _ | SettleDelay _ | SendKeyEnter _ => true
  | _ => false
  end.

Definition deliveries (t : list effect) : list effect := filter is_delivery t.

(* ================================================================== *)
(** * [docs/wisp-architecture.md]: the wisp ledger *)
(* ================================================================== *)

Module WispLedger.

(** Modelled from the spec: the data of the ledger (molecule, step, digest,
    the ephemeral and the durable store).  The stores belong to the external
    [bd] tool; the architecture document gives their files, the storage
    behaviour of each command and the shape of a digest. *)

(** Record identifiers are allocated by the store and are opaque; they are
    numbered here in the order of their allocation. *)
Definition RecordID : Type := nat.

Inductive StepStatus : Type := Pending | Complete.

Record Step : Type := {
  step_id : string;
  step_status : StepStatus
}.

Record Molecule : Type := {
  mol_id : RecordID;
  mol_protoName : string;
  mol_steps : list Step;
  mol_wisp : bool;
  mol_processID : option nat;
  mol_updatedAt : nat
}.

Record Digest : Type := {
  dig_id : RecordID;
  dig_title : string;
  dig_description : string;
  dig_parentRef : string;
  dig_squashedFrom : RecordID;
  dig_createdAt : nat
}.

(** A line of the permanent [.beads/issues.jsonl]: a regular molecule, with
    its abandoned mark, or a digest. *)
Inductive DurableRecord : Type :=
  | DMolecule (m : Molecule) (abandoned : bool)
  | DDigest (d : Digest).

(** The two stores: [.beads-wisp/issues.jsonl] and [.beads/issues.jsonl]. *)
Record Ledger : Type := {
  ephemeral : list Molecule;
  durable : list DurableRecord;
  next_id : RecordID
}.

Inductive LedgerError : Type := UnknownMolecule | UnknownStep.

(** What the ledger takes from the molecule system: the steps of a proto,
    and the parent and the title under which a molecule is summarised. *)
Record Protos : Type := {
  protoSteps : string -> list string;
  parentOf : Molecule -> string;
  titleOf : Molecule -> nat -> string
}.

Definition empty : Ledger :=
  {| ephemeral := []; durable := []; next_id := 0 |}.

Definition has_id (i : RecordID) (m : Molecule) : bool :=
  Nat.eqb (mol_id m) i.

Definition squashed_from (i : RecordID) (r : DurableRecord) : bool :=
  match r with
  | DMolecule _ _ => false
  | DDigest d => Nat.eqb (dig_squashedFrom d) i
  end.

Definition find_wisp (i : RecordID) (L : Ledger) : option Molecule :=
  find (has_id i) (ephemeral L).

Fixpoint find_molecule (i : RecordID) (rs : list DurableRecord)
  : option Molecule :=
  match rs with
  | [] => None
  | DMolecule m _ :: rest => if has_id i m then Some m else find_molecule i rest
  | DDigest _ :: rest => find_molecule i rest
  end.

(** Modelled from the spec: [bond(protoName)] "allocates a new molecule in
    the ephemeral store if [wisp=true] is requested, else in the durable
    store" ([bd mol bond <proto> --wisp] creates in [.beads-wisp/] instead
    of [.beads/]); the implementation is the external [bd] tool. *)
Definition bond (P : Protos) (protoName : string) (wisp : bool)
  (pid : option nat) (now : nat) (L : Ledger) : Molecule * Ledger :=
  let m := {| mol_id := next_id L;
              mol_protoName := protoName;
              mol_steps := map (fun s => {| step_id := s; step_status := Pending |})
                               (protoSteps P protoName);
              mol_wisp := wisp;
              mol_processID := pid;
              mol_updatedAt := now |} in
  if wisp then
    (m, {| ephemeral := (ephemeral L ++ [m])%list;
           durable := durable L;
           next_id := S (next_id L) |})
  else
    (m, {| ephemeral := ephemeral L;
           durable := (durable L ++ [DMolecule m false])%list;
           next_id := S (next_id L) |}).

(** Marks the step [sid] complete; [None] when there is no such step. *)
Fixpoint complete_step (sid : string) (steps : list Step) : option (list Step) :=
  match steps with
  | [] => None
  | s :: rest =>
      if step_id s =? sid
      then Some ({| step_id := step_id s; step_status := Complete |} :: rest)
      else match complete_step sid rest with
           | Some rest' => Some (s :: rest')
           | None => None
           end
  end.

Definition with_steps (m : Molecule) (steps : list Step) (now : nat) : Molecule :=
  {| mol_id := mol_id m;
     mol_protoName := mol_protoName m;
     mol_steps := steps;
     mol_wisp := mol_wisp m;
     mol_processID := mol_processID m;
     mol_updatedAt := now |}.

(** The durable record [r] with the steps of the molecule [i] replaced. *)
Definition restep (i : RecordID) (steps : list Step) (now : nat)
  (r : DurableRecord) : DurableRecord :=
  match r with
  | DMolecule x a => if has_id i x then DMolecule (with_steps x steps now) a else r
  | DDigest _ => r
  end.

(** Modelled from the spec: [step(moleculeID, stepID) ->
    fails(UnknownMolecule | UnknownStep)] "marks one step complete", in the
    store the molecule lives in ([bd mol step]: updates in wisp store with
    [--wisp], in permanent without). *)
Definition step (i : RecordID) (sid : string) (now : nat) (L : Ledger)
  : LedgerError + Ledger :=
  match find_wisp i L with
  | Some m =>
      match complete_step sid (mol_steps m) with
      | None => inl UnknownStep
      | Some steps =>
          inr {| ephemeral :=
                   map (fun x => if has_id i x then with_steps x steps now else x)
                       (ephemeral L);
                 durable := durable L;
                 next_id := next_id L |}
      end
  | None =>
      match find_molecule i (durable L) with
      | None => inl UnknownMolecule
      | Some m =>
          match complete_step sid (mol_steps m) with
          | None => inl UnknownStep
          | Some steps =>
              inr {| ephemeral := ephemeral L;
                     durable := map (restep i steps now) (durable L);
                     next_id := next_id L |}
          end
      end
  end.

Definition digest_of (P : Protos) (m : Molecule) (summary : string)
  (now : nat) (L : Ledger) : Digest :=
  {| dig_id := next_id L;
     dig_title := titleOf P m now;
     dig_description := summary;
     dig_parentRef := parentOf P m;
     dig_squashedFrom := mol_id m;
     dig_createdAt := now |}.

(** Modelled from the spec: [squash(moleculeID, summary) -> DigestID |
    fails(UnknownMolecule)] "writes a Digest to the durable store
    referencing the molecule's parent and original id, then deletes the
    wisp record" ([bd mol squash]: deletes from wisp and creates the digest
    in permanent with [--wisp]; creates the digest in permanent without). *)
Definition squash (P : Protos) (i : RecordID) (summary : string) (now : nat)
  (L : Ledger) : LedgerError + (RecordID * Ledger) :=
  match find_wisp i L with
  | Some m =>
      let d := digest_of P m summary now L in
      inr (dig_id d,
           {| ephemeral := filter (fun x => negb (has_id i x)) (ephemeral L);
              durable := (durable L ++ [DDigest d])%list;
              next_id := S (next_id L) |})
  | None =>
      match find_molecule i (durable L) with
      | None => inl UnknownMolecule
      | Some m =>
          let d := digest_of P m summary now L in
          inr (dig_id d,
               {| ephemeral := ephemeral L;
                  durable := (durable L ++ [DDigest d])%list;
                  next_id := S (next_id L) |})
      end
  end.

(** The durable record [r] with the molecule [i] marked abandoned. *)
Definition abandon (i : RecordID) (r : DurableRecord) : DurableRecord :=
  match r with
  | DMolecule x a => if has_id i x then DMolecule x true else r
  | DDigest _ => r
  end.

(** Modelled from the spec: [burn(moleculeID)] "discards without a digest":
    it "deletes the wisp with no digest, for non-wisp molecules marks the
    record abandoned instead of deleting it" ([bd mol burn]: deletes from
    wisp with [--wisp], marks abandoned in permanent without). *)
Definition burn (i : RecordID) (L : Ledger) : Ledger :=
  match find_wisp i L with
  | Some _ =>
      {| ephemeral := filter (fun x => negb (has_id i x)) (ephemeral L);
         durable := durable L;
         next_id := next_id L |}
  | None =>
      {| ephemeral := ephemeral L;
         durable := map (abandon i) (durable L);
         next_id := next_id L |}
  end.

(** The operations of a molecule's lifecycle. *)
Inductive op : Type :=
  | Bond (protoName : string) (wisp : bool) (pid : option nat) (now : nat)
  | StepOp (i : RecordID) (sid : string) (now : nat)
  | Squash (i : RecordID) (summary : string) (now : nat)
  | Burn (i : RecordID).

(** One operation on the ledger; an operation that fails changes nothing. *)
Definition apply (P : Protos) (L : Ledger) (o : op) : Ledger :=
  match o with
  | Bond protoName wisp pid now => snd (bond P protoName wisp pid now L)
  | StepOp i sid now =>
      match step i sid now L with inr L' => L' | inl _ => L end
  | Squash i summary now =>
      match squash P i summary now L with inr (_, L') => L' | inl _ => L end
  | Burn i => burn i L
  end.

Definition run (P : Protos) (ops : list op) (L : Ledger) : Ledger :=
  fold_left (apply P) ops L.

(** The ledgers that operations can produce from the empty stores. *)
Definition reachable (P : Protos) (L : Ledger) : Prop :=
  exists ops, L = run P ops empty.

(** The molecule [i] is present in the ephemeral, the durable store. *)
Definition in_ephemeral (i : RecordID) (L : Ledger) : Prop :=
  exists m, In m (ephemeral L) /\ mol_id m = i.

Definition in_durable (i : RecordID) (L : Ledger) : Prop :=
  exists m a, In (DMolecule m a) (durable L) /\ mol_id m = i.

(** The number of wisp records with the id [i], and of digests in the
    durable store whose [squashedFrom] is [i]. *)
Definition wisp_count (i : RecordID) (L : Ledger) : nat :=
  List.length (filter (has_id i) (ephemeral L)).

Definition digest_count (i : RecordID) (L : Ledger) : nat :=
  List.length (filter (squashed_from i) (durable L)).

(** The invariant of the ledger: flags agree with the store, identifiers
    are allocated ones, a digest never refers to a wisp that is still
    there, and no identifier is in both stores. *)
Definition well_formed (L : Ledger) : Prop :=
  (forall m, In m (ephemeral L) ->
     mol_wisp m = true /\ mol_id m < next_id L) /\
  (forall m a, In (DMolecule m a) (durable L) ->
     mol_wisp m = false /\ mol_id m < next_id L) /\
  (forall d, In (DDigest d) (durable L) ->
     dig_squashedFrom d < next_id L /\ ~ in_ephemeral (dig_squashedFrom d) L) /\
  (forall m m' a, In m (ephemeral L) -> In (DMolecule m' a) (durable L) ->
     mol_id m <> mol_id m').

(** An identifier that is allocated and is not a durable molecule never
    becomes one. *)
Definition never_durable (i : RecordID) (L : Ledger) : Prop :=
  i < next_id L /\ ~ in_durable i L.

(** The step loop of the patrol pattern: every step of the molecule [i] is
    marked complete in turn; a step that fails changes nothing. *)
Definition complete_all (i : RecordID) (now : nat) (steps : list Step)
  (L : Ledger) : Ledger :=
  fold_left (fun L s => match step i (step_id s) now L with
                        | inr L' => L'
                        | inl _ => L
                        end) steps L.

(** The patrol pattern of the architecture document ([patrolCycle]): bond a
    wisp molecule, complete its steps, squash it with the summary of the
    cycle.  The three clock readings are those of the three phases. *)
Definition patrolCycle (P : Protos) (protoName : string) (pid : option nat)
  (bonded stepped squashed : nat) (summary : string) (L : Ledger)
  : LedgerError + (RecordID * Ledger) :=
  let (mol, L1) := bond P protoName true pid bonded L in
  let L2 := complete_all (mol_id mol) stepped (mol_steps mol) L1 in
  squash P (mol_id mol) summary squashed L2.

(** The digests of the durable store. *)
Definition digests (L : Ledger) : list Digest :=
  flat_map (fun r => match r with DDigest d => [d] | DMolecule _ _ => [] end)
           (durable L).

(** A ledger whose last wisp is [i], the other wisps being [E]. *)
Definition last_wisp (i : RecordID) (E : list Molecule)
  (D : list DurableRecord) (n : RecordID) (L : Ledger) : Prop :=
  exists m, mol_id m = i /\ ephemeral L = (E ++ [m])%list /\
            durable L = D /\ next_id L = n.

End WispLedger.

(** The printing and the logging among the calls of a run of [runNudge]. *)
Definition is_stdout (e : effect) : bool :=
  match e with Stdout _ => true | _ => false end.

Definition is_report (e : effect) : bool :=
  match e with
  | Stdout _ | LogNudge _ _ _ | LogFeed _ _ _ _ => true
  | _ => false
  end.

Definition is_query (e : effect) : bool :=
  match e with HasSessionQuery _ => true | _ => false end.

Definition is_banner (e : effect) : bool :=
  match e with NotificationBanner _ _ _ => true | _ => false end.

(* ================================================================== *)
(** * [internal/cmd/rig_helpers.go]: getRig *)
(* ================================================================== *)

(** What [getRig] takes from the workspace, configuration and rig packages.
    [Config] stands for [config.RigsConfig]; [emptyConfig] is the value
    [&config.RigsConfig{Rigs: make(map[string]config.RigEntry)}]. *)
Record RigEnv (Config : Type) : Type := {
  rig_FindFromCwdOrError : error + string;
  MayorRigsPath : string -> string;                 (* constants *)
  LoadRigsConfig : string -> error + Config;
  is_ErrNotFound : error -> bool;                   (* errors.Is(err, config.ErrNotFound) *)
  emptyConfig : Config;
  rigMgr_GetRig : string -> Config -> string -> error + Rig
}.

Arguments rig_FindFromCwdOrError {Config}.
Arguments MayorRigsPath {Config}.
Arguments LoadRigsConfig {Config}.
Arguments is_ErrNotFound {Config}.
Arguments emptyConfig {Config}.
Arguments rigMgr_GetRig {Config}.

(** [getRig(rigName) (string, *rig.Rig, error)]: the town root and the rig.
    Only a missing configuration file is replaced by the empty
    configuration; any other load error is reported. *)
Definition getRig {Config : Type} (env : RigEnv Config) (rigName : string)
  : error + (string * Rig) :=
  match rig_FindFromCwdOrError env with
  | inl err => inl (ErrWrap "not in a Gas Town workspace" err)
  | inr townRoot =>
      let rigsConfigPath := MayorRigsPath env townRoot in
      let loaded :=
        match LoadRigsConfig env rigsConfigPath with
        | inl err =>
            if negb (is_ErrNotFound env err)
            then inl (ErrWrap ("loading rigs config from " ++ rigsConfigPath) err)
            else inr (emptyConfig env)
        | inr rigsConfig => inr rigsConfig
        end in
      match loaded with
      | inl err => inl err
      | inr rigsConfig =>
          match rigMgr_GetRig env townRoot rigsConfig rigName with
          | inl err => inl (ErrWrap ("rig '" ++ rigName ++ "' not found") err)
          | inr r => inr (townRoot, r)
          end
      end
  end.

(* ================================================================== *)
(** * [internal/cmd/session.go]: the session subcommands *)
(* ================================================================== *)

Module SessionCmd.

(** [strconv.Atoi] on a platform whose [int] has 64 bits: an optional sign
    and one or more decimal digits, within the range of [int]; [None] is
    the syntax or range error. *)
Definition digit (c : ascii) : option Z :=
  let n := nat_of_ascii c in
  if Nat.leb 48 n && Nat.leb n 57 then Some (Z.of_nat (n - 48)) else None.

Fixpoint digits (s : string) (acc : Z) : option Z :=
  match s with
  | EmptyString => Some acc
  | String c rest =>
      match digit c with
      | Some d => digits rest (10 * acc + d)
      | None => None
      end
  end.

Definition Atoi (s : string) : option Z :=
  let signed :=
    match s with
    | String c rest =>
        if Ascii.eqb c "-" then (true, rest)
        else if Ascii.eqb c "+" then (false, rest)
        else (false, s)
    | EmptyString => (false, s)
    end in
  let (neg, body) := signed in
  if is_empty body then None
  else
    match digits body 0 with
    | None => None
    | Some n =>
        let v := if neg then (- n)%Z else n in
        if ((- 2 ^ 63 <=? v) && (v <=? 2 ^ 63 - 1))%Z then Some v else None
    end.

(** The command flags. *)
Record Flags : Type := {
  sessionIssue : string;
  sessionForce : bool;
  sessionLines : Z;
  sessionMessage : string;
  sessionFile : string;
  sessionRigFilter : string;
  sessionListJSON : bool
}.

Record StartOptions : Type := { opt_Issue : string }.

(** The fields of [session.Info] that the list command reads. *)
Record Info : Type := {
  info_Polecat : string;
  info_SessionID : string;
  info_Running : bool
}.

Record SessionListItem : Type := {
  item_Rig : string;
  item_Polecat : string;
  item_SessionID : string;
  item_Running : bool
}.

(** The outcomes of the methods of [session.Manager] (for the manager of a
    rig), of [rig.Manager.DiscoverRigs] (for a town root), of [os.ReadFile]
    and of the JSON encoder on standard output. *)
Record SessionEnv : Type := {
  mgr_Start : Rig -> string -> StartOptions -> option error;
  mgr_Stop : Rig -> string -> bool -> option error;
  mgr_Attach : Rig -> string -> option error;
  mgr_Capture : Rig -> string -> Z -> error + string;
  mgr_Inject : Rig -> string -> string -> option error;
  mgr_List : Rig -> error + list Info;
  DiscoverRigs : string -> error + list Rig;
  ReadFile : string -> error + string;
  Encode : list SessionListItem -> option error
}.

(** What a session subcommand prints. *)
Inductive printed : Type :=
  | PStarting (rigName polecatName : string)   (* "Starting session for %s/%s..." *)
  | PStarted (rigName polecatName : string)    (* "✓ Session started. Attach with: gt session at %s/%s" *)
  | PForceStopping (rigName polecatName : string)
  | PStopping (rigName polecatName : string)
  | PStopped                                   (* "✓ Session stopped." *)
  | PCaptured (output : string)                (* fmt.Print(output) *)
  | PInjected (rigName polecatName : string)   (* "✓ Message sent to %s/%s" *)
  | PNoSessions                                (* "No active sessions." *)
  | PSessions (items : list SessionListItem).  (* the "Active Sessions" table *)

(** The calls of a session subcommand, in order. *)
Inductive event : Type :=
  | Start (r : Rig) (polecat : string) (opts : StartOptions)
  | Stop (r : Rig) (polecat : string) (force : bool)
  | Attach (r : Rig) (polecat : string)
  | Capture (r : Rig) (polecat : string) (lines : Z)
  | Inject (r : Rig) (polecat message : string)
  | List (r : Rig)
  | Discover (townRoot : string)
  | Read (path : string)
  | EncodeJSON (items : list SessionListItem)
  | Print (p : printed).

(** A subcommand: its calls so far, and an error or a value. *)
Definition T (A : Type) : Type := list event * (error + A).

Definition tret {A : Type} (a : A) : T A := ([], inr a).

Definition tfail {A : Type} (e : error) : T A := ([], inl e).

Definition tbind {A B : Type} (m : T A) (k : A -> T B) : T B :=
  match m with
  | (t, inl e) => (t, inl e)
  | (t, inr a) => let (t', r) := k a in ((t ++ t')%list, r)
  end.

Declare Scope session_scope.
Delimit Scope session_scope with session.
Notation "x <- m ;; k" := (tbind m (fun x => k))
  (at level 61, m at next level, right associativity) : session_scope.
Notation "m ;;; k" := (tbind m (fun _ => k))
  (at level 61, right associativity) : session_scope.

Definition tcall {A : Type} (e : event) (outcome : error + A) : T A :=
  ([e], outcome).

Definition print (p : printed) : T unit := ([Print p], inr tt).

Definition twrap {A : Type} (ctx : string) (m : T A) : T A :=
  match m with
  | (t, inl e) => (t, inl (ErrWrap ctx e))
  | (t, inr a) => (t, inr a)
  end.

(** [rigName, polecatName, err := parseAddress(args[0]); if err != nil
     { return err }]. *)
Definition address (addr : string) : T (string * string) :=
  match parseAddress addr with
  | (rigName, polecatName, None) => tret (rigName, polecatName)
  | (_, _, Some err) => tfail err
  end.

(** [mgr, r, err := getSessionManager(rigName); if err != nil { return err }];
    the manager is known by its rig. *)
Definition manager (env : CmdEnv) (rigName : string) : T Rig :=
  match snd (getSessionManager env rigName) with
  | inl err => tfail err
  | inr mgr => tret (mgr_rig mgr)
  end.

Local Open Scope session_scope.

(** [runSessionStart(cmd, args)] with [addr = args[0]]. *)
Definition runSessionStart (env : CmdEnv) (se : SessionEnv) (fl : Flags)
  (addr : string) : T unit :=
  a <- address addr ;;
  let (rigName, polecatName) := a in
  r <- manager env rigName ;;
  let found := existsb (fun p => p =? polecatName) (rig_Polecats r) in
  if negb found then
    tfail (ErrNew ("polecat '" ++ polecatName ++ "' not found in rig '"
                   ++ rigName ++ "'"))
  else
    let opts := {| opt_Issue := sessionIssue fl |} in
    print (PStarting rigName polecatName) ;;;
    twrap "starting session"
      (tcall (Start r polecatName opts) (of_err (mgr_Start se r polecatName opts))) ;;;
    print (PStarted rigName polecatName).

(** [runSessionStop(cmd, args)]. *)
Definition runSessionStop (env : CmdEnv) (se : SessionEnv) (fl : Flags)
  (addr : string) : T unit :=
  a <- address addr ;;
  let (rigName, polecatName) := a in
  r <- manager env rigName ;;
  (if sessionForce fl then print (PForceStopping rigName polecatName)
   else print (PStopping rigName polecatName)) ;;;
  twrap "stopping session"
    (tcall (Stop r polecatName (sessionForce fl))
           (of_err (mgr_Stop se r polecatName (sessionForce fl)))) ;;;
  print PStopped.

(** [runSessionAttach(cmd, args)]: the error of [Attach] is returned as it
    is. *)
Definition runSessionAttach (env : CmdEnv) (se : SessionEnv)
  (addr : string) : T unit :=
  a <- address addr ;;
  let (rigName, polecatName) := a in
  r <- manager env rigName ;;
  tcall (Attach r polecatName) (of_err (mgr_Attach se r polecatName)).

(** [runSessionCapture(cmd, args)] with [addr = args[0]] and the optional
    [count = args[1]]. *)
Definition runSessionCapture (env : CmdEnv) (se : SessionEnv) (fl : Flags)
  (addr : string) (count : option string) : T unit :=
  a <- address addr ;;
  let (rigName, polecatName) := a in
  r <- manager env rigName ;;
  lines <-
    match count with
    | None => tret (sessionLines fl)
    | Some c =>
        match Atoi c with
        | None =>
            tfail (ErrNew ("invalid line count '" ++ c ++ "': must be a number"))
        | Some n =>
            if (n <=? 0)%Z then
              tfail (ErrNew ("line count must be positive, got " ++ Sprintf_d n))
            else tret n
        end
    end ;;
  output <- twrap "capturing output"
              (tcall (Capture r polecatName lines)
                     (mgr_Capture se r polecatName lines)) ;;
  print (PCaptured output).

(** [runSessionInject(cmd, args)]. *)
Definition runSessionInject (env : CmdEnv) (se : SessionEnv) (fl : Flags)
  (addr : string) : T unit :=
  a <- address addr ;;
  let (rigName, polecatName) := a in
  message <-
    (if negb (is_empty (sessionFile fl)) then
       twrap "reading file"
         (tcall (Read (sessionFile fl)) (ReadFile se (sessionFile fl)))
     else tret (sessionMessage fl)) ;;
  if is_empty message then tfail ErrNoMessage
  else
    r <- manager env rigName ;;
    twrap "injecting message"
      (tcall (Inject r polecatName message)
             (of_err (mgr_Inject se r polecatName message))) ;;;
    print (PInjected rigName polecatName).

(** The loop of [runSessionList] over the rigs: the sessions of every rig
    whose listing succeeds; a rig whose listing fails is skipped. *)
Fixpoint collect (se : SessionEnv) (rigs : list Rig)
  : list event * list SessionListItem :=
  match rigs with
  | [] => ([], [])
  | r :: rest =>
      let (t, items) := collect se rest in
      match mgr_List se r with
      | inl _ => (List r :: t, items)
      | inr infos =>
          (List r :: t,
           (map (fun info => {| item_Rig := rig_Name r;
                                item_Polecat := info_Polecat info;
                                item_SessionID := info_SessionID info;
                                item_Running := info_Running info |}) infos
            ++ items)%list)
      end
  end.

(** [runSessionList(cmd, args)]; a rigs configuration that does not load is
    replaced by the empty one. *)
Definition runSessionList (env : CmdEnv) (se : SessionEnv) (fl : Flags)
  : T unit :=
  match FindFromCwdOrError env with
  | inl err => tfail (ErrWrap "not in a Gas Town workspace" err)
  | inr townRoot =>
      rigs <- twrap "discovering rigs"
                (tcall (Discover townRoot) (DiscoverRigs se townRoot)) ;;
      let rigs :=
        if negb (is_empty (sessionRigFilter fl))
        then filter (fun r => rig_Name r =? sessionRigFilter fl) rigs
        else rigs in
      let (t, allSessions) := collect se rigs in
      (t, inr tt) ;;;
      if sessionListJSON fl then
        tcall (EncodeJSON allSessions) (of_err (Encode se allSessions))
      else if Nat.eqb (List.length allSessions) 0 then print PNoSessions
      else print (PSessions allSessions)
  end.

Local Close Scope session_scope.

(** The calls to the session manager among the calls of a subcommand. *)
Definition is_manager_call (e : event) : bool :=
  match e with
  | Start _ _ _ | Stop _ _ _ | Attach _ _ | Capture _ _ _ | Inject _ _ _
  | List _ => true
  | _ => false
  end.

(** The lines a subcommand prints on success. *)
Definition is_success_line (e : event) : bool :=
  match e with
  | Print (PStarted _ _) | Print PStopped | Print (PInjected _ _)
  | Print (PCaptured _) => true
  | _ => false
  end.

(** The sessions that a run of the list command writes, if any. *)
Definition listed (items : list SessionListItem) (cmd : T unit) : Prop :=
  In (EncodeJSON items) (fst cmd) \/ In (Print (PSessions items)) (fst cmd).

(** The rigs the list command looks at, and how it ends. *)
Definition listed_rigs (fl : Flags) (rigs : list Rig) : list Rig :=
  if negb (is_empty (sessionRigFilter fl))
  then filter (fun r => rig_Name r =? sessionRigFilter fl) rigs
  else rigs.

Definition list_output (se : SessionEnv) (fl : Flags)
  (all : list SessionListItem) : T unit :=
  if sessionListJSON fl then tcall (EncodeJSON all) (of_err (Encode se all))
  else if Nat.eqb (List.length all) 0 then print PNoSessions
  else print (PSessions all).

End SessionCmd.

(* ================================================================== *)
(** * Properties of the string functions *)
(* ================================================================== *)

Lemma is_empty_true (s : string) : is_empty s = true <-> s = "".
Proof. destruct s; simpl; split; intro H; try reflexivity; discriminate. Qed.

Lemma is_empty_false (s : string) : is_empty s = false <-> s <> "".
Proof.
  destruct s; simpl; split; intro H; try reflexivity; try discriminate.
  now destruct H.
Qed.

Lemma append_assoc (a b c : string) : (a ++ b) ++ c = a ++ b ++ c.
Proof. induction a as [|x a IH]; simpl; [reflexivity | now rewrite IH]. Qed.

Lemma append_inv_head (p a b : string) : p ++ a = p ++ b -> a = b.
Proof.
  induction p as [|x p IH]; simpl; intro H; [exact H|].
  injection H as H. now apply IH.
Qed.

Lemma length_append (a b : string) :
  String.length (a ++ b) = String.length a + String.length b.
Proof. induction a as [|x a IH]; simpl; [reflexivity | now rewrite IH]. Qed.

Lemma append_not_self (s : string) (c : ascii) (t : string) :
  s ++ String c t <> s.
Proof.
  intro H. apply (f_equal String.length) in H.
  rewrite length_append in H. simpl in H. lia.
Qed.

(** [Cut] finds the first occurrence of the separator. *)
Lemma Cut_Some (s : string) (c : ascii) (a b : string) :
  Cut s c = Some (a, b) -> s = a ++ String c b /\ ~ occurs c a.
Proof.
  revert a b. induction s as [|x s IH]; simpl; intros a b H; [discriminate|].
  destruct (Ascii.eqb x c) eqn:E.
  - apply Ascii.eqb_eq in E. injection H as <- <-. subst x. simpl. tauto.
  - destruct (Cut s c) as [[a' b']|] eqn:C; [|discriminate].
    injection H as <- <-. destruct (IH a' b' eq_refl) as [-> Hn].
    split; [reflexivity|]. simpl. intros [Hx | Ho].
    + subst x. now rewrite Ascii.eqb_refl in E.
    + now apply Hn.
Qed.

Lemma Cut_None (s : string) (c : ascii) :
  Cut s c = None <-> ~ occurs c s.
Proof.
  induction s as [|x s IH]; simpl.
  - tauto.
  - destruct (Ascii.eqb x c) eqn:E.
    + apply Ascii.eqb_eq in E. split; [discriminate | intro H; exfalso; auto].
    + apply Ascii.eqb_neq in E.
      destruct (Cut s c) as [[a b]|]; split; intro H;
        try discriminate; try reflexivity.
      * destruct IH as [_ IH]. discriminate IH. tauto.
      * intros [Hx | Ho]; [now apply E | now apply (proj1 IH)].
Qed.

Lemma Cut_app (a b : string) (c : ascii) :
  ~ occurs c a -> Cut (a ++ String c b) c = Some (a, b).
Proof.
  induction a as [|x a IH]; simpl; intro H.
  - now rewrite Ascii.eqb_refl.
  - destruct (Ascii.eqb x c) eqn:E.
    + apply Ascii.eqb_eq in E. tauto.
    + rewrite IH by tauto. reflexivity.
Qed.

Lemma HasPrefix_append (p s : string) : HasPrefix (p ++ s) p = true.
Proof.
  induction p as [|x p IH]; simpl; [reflexivity|].
  now rewrite Ascii.eqb_refl, IH.
Qed.

Lemma HasPrefix_true (s p : string) :
  HasPrefix s p = true <-> exists rest, s = p ++ rest.
Proof.
  split.
  - revert s. induction p as [|x p IH]; intros s H.
    + exists s. reflexivity.
    + destruct s as [|y s]; simpl in H; [discriminate|].
      apply andb_true_iff in H as [E H]. apply Ascii.eqb_eq in E. subst y.
      destruct (IH s H) as [rest ->]. now exists rest.
  - intros [rest ->]. apply HasPrefix_append.
Qed.

(** A prefix that does not contain [c] is decided before a [c] is read. *)
Lemma HasPrefix_before (p s t : string) (c : ascii) :
  ~ occurs c p -> HasPrefix (s ++ String c t) p = HasPrefix s p.
Proof.
  revert s. induction p as [|x p IH]; intros s H; [now destruct s|].
  simpl in H. destruct s as [|y s]; simpl.
  - destruct (Ascii.eqb c x) eqn:E; [|reflexivity].
    apply Ascii.eqb_eq in E. subst. tauto.
  - rewrite IH by tauto. reflexivity.
Qed.

(* ================================================================== *)
(** * Addresses: parsing and session identifiers *)
(* ================================================================== *)

Example parseAddress_furiosa :
  parseAddress "gastown/furiosa" = ("gastown", "furiosa", None).
Proof. reflexivity. Qed.

Example parseAddress_crew :
  parseAddress "gastown/crew/max" = ("gastown", "crew/max", None).
Proof. reflexivity. Qed.

Example addressToSessionID_furiosa :
  addressToSessionID "gastown/furiosa" = "gt-gastown-furiosa".
Proof. reflexivity. Qed.

Example addressToSessionID_unrecognised :
  addressToSessionID "gastown/" = "" /\ addressToSessionID "gastown" = "".
Proof. split; reflexivity. Qed.

Lemma SplitN2_slash (rig name : string) :
  ~ occurs slash rig ->
  SplitN (rig ++ String slash name) slash 2 = [rig; name].
Proof. intro H. simpl. now rewrite Cut_app. Qed.

Lemma SplitN2_none (addr : string) :
  ~ occurs slash addr -> SplitN addr slash 2 = [addr].
Proof. intro H. simpl. apply Cut_None in H. now rewrite H. Qed.

(** The addresses [parseAddress] accepts are exactly [rig/name] with a
    non-empty [rig] without ['/'] and a non-empty [name]. *)
Lemma parseAddress_ok (addr rig name : string) :
  parseAddress addr = (rig, name, None) <->
  addr = rig ++ String slash name /\ ~ occurs slash rig /\ rig <> "" /\ name <> "".
Proof.
  unfold parseAddress. simpl. split.
  - destruct (Cut addr slash) as [[a b]|] eqn:C; [|discriminate].
    destruct (is_empty a) eqn:Ea; [discriminate|].
    destruct (is_empty b) eqn:Eb; [discriminate|]. simpl.
    intro H. injection H as <- <-.
    apply Cut_Some in C as [-> Hn].
    apply is_empty_false in Ea, Eb. tauto.
  - intros (-> & Hn & Hr & Hm). rewrite Cut_app by assumption.
    apply is_empty_false in Hr, Hm. now rewrite Hr, Hm.
Qed.

(** On an accepted address the session identifier is [gt-<rig>-<name>],
    unless the address begins with [mayor]. *)
Lemma addressToSessionID_parsed (addr rig name : string) :
  parseAddress addr = (rig, name, None) ->
  HasPrefix addr "mayor" = false ->
  addressToSessionID addr = "gt-" ++ rig ++ "-" ++ name.
Proof.
  intros H Hm. apply parseAddress_ok in H as (-> & Hn & Hr & Hne).
  unfold addressToSessionID. rewrite Hm, SplitN2_slash by assumption.
  apply is_empty_false in Hne. now rewrite Hne.
Qed.

(** C4: an address without ['/'], with an empty rig, or with an empty name
    is rejected with the invalid-format error, and both returned components
    are empty. *)
Theorem parseAddress_malformed (addr : string) :
  (~ occurs slash addr) \/
  (exists name, addr = String slash name) \/
  (exists rig, ~ occurs slash rig /\ addr = rig ++ String slash "") ->
  parseAddress addr = ("", "", Some (ErrInvalidFormat addr)).
Proof.
  intros [H | [[name ->] | [rig [H ->]]]]; unfold parseAddress.
  - now rewrite SplitN2_none.
  - reflexivity.
  - rewrite SplitN2_slash by assumption. simpl. now rewrite orb_true_r.
Qed.

Lemma parseAddress_malformed_witness :
  parseAddress "badformat" = ("", "", Some (ErrInvalidFormat "badformat")) /\
  parseAddress "/name" = ("", "", Some (ErrInvalidFormat "/name")) /\
  parseAddress "rig/" = ("", "", Some (ErrInvalidFormat "rig/")).
Proof.
  split; [|split].
  - apply parseAddress_malformed. left. simpl.
    intuition discriminate.
  - apply parseAddress_malformed. right. left. exists "name". reflexivity.
  - apply parseAddress_malformed. right. right. exists "rig". split.
    + simpl. intuition discriminate.
    + reflexivity.
Defined.

(** Every address is either accepted, with both components non-empty, or
    rejected with both components empty: nothing is resolved in part. *)
Lemma parseAddress_total (addr : string) :
  (exists rig name, parseAddress addr = (rig, name, None)
                    /\ rig <> "" /\ name <> "") \/
  parseAddress addr = ("", "", Some (ErrInvalidFormat addr)).
Proof.
  unfold parseAddress. destruct (SplitN addr slash 2) as [|p0 [|p1 [|]]];
    try (now right).
  destruct (is_empty p0) eqn:E0; [now right|].
  destruct (is_empty p1) eqn:E1; [now right|].
  left. exists p0, p1. apply is_empty_false in E0, E1. simpl. tauto.
Qed.

(** The calls of [notifyRecipient] once the session identifier is known. *)
Lemma notifyRecipient_trace (r : Router) (msg : Message) :
  addressToSessionID (msg_To msg) <> "" ->
  trace (notifyRecipient r msg) =
    HasSessionQuery (addressToSessionID (msg_To msg)) ::
    match has_session (tmux r) (addressToSessionID (msg_To msg)) with
    | inr true => [NotificationBanner (addressToSessionID (msg_To msg))
                                      (msg_From msg) (msg_Subject msg)]
    | _ => []
    end.
Proof.
  intro H. apply is_empty_false in H. unfold notifyRecipient. rewrite H.
  unfold HasSession, call.
  destruct (has_session (tmux r) (addressToSessionID (msg_To msg))) as [e|[|]];
    reflexivity.
Qed.

(** C10: every recipient address that begins with [mayor] gets the session
    identifier [gt-mayor], and the notification of a message to such an
    address queries and addresses that session. *)
Theorem mayor_prefix_session (address : string) :
  (exists rest, address = "mayor" ++ rest) ->
  addressToSessionID address = "gt-mayor" /\
  forall (r : Router) (msg : Message),
    msg_To msg = address ->
    trace (notifyRecipient r msg) =
      HasSessionQuery "gt-mayor" ::
      match has_session (tmux r) "gt-mayor" with
      | inr true => [NotificationBanner "gt-mayor" (msg_From msg) (msg_Subject msg)]
      | _ => []
      end.
Proof.
  intro H. apply HasPrefix_true in H.
  assert (E : addressToSessionID address = "gt-mayor").
  { unfold addressToSessionID. now rewrite H. }
  split; [exact E|].
  intros r msg Hto. rewrite notifyRecipient_trace; rewrite Hto, E.
  - reflexivity.
  - discriminate.
Qed.

Lemma mayor_prefix_session_witness :
  addressToSessionID "mayorette/worker" = "gt-mayor" /\
  addressToSessionID "mayor-rig/alice" = "gt-mayor".
Proof.
  split.
  - apply (mayor_prefix_session "mayorette/worker").
    exists "ette/worker". reflexivity.
  - apply (mayor_prefix_session "mayor-rig/alice").
    exists "-rig/alice". reflexivity.
Defined.

(** C9 fails: an address and its trailing-slash variant are parsed to
    different names and get different session identifiers. *)
Lemma trailing_slash_not_normalized :
  parseAddress "gastown/furiosa" = ("gastown", "furiosa", None) /\
  parseAddress "gastown/furiosa/" = ("gastown", "furiosa/", None) /\
  addressToSessionID "gastown/furiosa" = "gt-gastown-furiosa" /\
  addressToSessionID "gastown/furiosa/" = "gt-gastown-furiosa/" /\
  addressToSessionID "gastown/furiosa/" <> addressToSessionID "gastown/furiosa".
Proof. repeat split; try reflexivity. discriminate. Qed.

(** C9, amended: nothing is normalized; the name is everything after the
    first ['/'], verbatim.  The trailing-slash variant of an accepted address
    is accepted with the same rig and with the slash kept in the name; and,
    for an address that does not begin with [mayor], its session identifier
    is the original one followed by the slash, hence a different one. *)
Theorem trailing_slash_kept (addr rig name : string) :
  parseAddress addr = (rig, name, None) ->
  parseAddress (addr ++ "/") = (rig, name ++ "/", None) /\
  (HasPrefix addr "mayor" = false ->
     addressToSessionID (addr ++ "/") = addressToSessionID addr ++ "/" /\
     addressToSessionID (addr ++ "/") <> addressToSessionID addr).
Proof.
  intro H.
  assert (H' : parseAddress (addr ++ "/") = (rig, name ++ "/", None)).
  { apply parseAddress_ok in H as (-> & Hn & Hr & Hne).
    apply parseAddress_ok. repeat split; try assumption.
    - now rewrite append_assoc.
    - destruct name; discriminate. }
  split; [exact H'|].
  intro Hm.
  assert (Hm' : HasPrefix (addr ++ "/") "mayor" = false).
  { change (addr ++ "/") with (addr ++ String slash "").
    rewrite HasPrefix_before; [exact Hm|].
    simpl. intuition discriminate. }
  rewrite (addressToSessionID_parsed _ _ _ H' Hm').
  rewrite (addressToSessionID_parsed _ _ _ H Hm).
  assert (E : "gt-" ++ rig ++ "-" ++ name ++ "/"
              = ("gt-" ++ rig ++ "-" ++ name) ++ "/").
  { change ("gt-" ++ rig ++ "-" ++ name ++ "/")
      with ("gt-" ++ (rig ++ ("-" ++ (name ++ "/")))).
    change ("gt-" ++ rig ++ "-" ++ name)
      with ("gt-" ++ (rig ++ ("-" ++ name))).
    now rewrite !append_assoc. }
  split; [exact E|]. rewrite E. apply append_not_self.
Qed.

Lemma trailing_slash_kept_witness :
  parseAddress "gastown/furiosa/" = ("gastown", "furiosa/", None) /\
  addressToSessionID "gastown/furiosa/" = "gt-gastown-furiosa/".
Proof.
  destruct (trailing_slash_kept "gastown/furiosa" "gastown" "furiosa" eq_refl)
    as [Hp Hs].
  split; [exact Hp|]. exact (proj1 (Hs eq_refl)).
Defined.

(** C1 fails: two accepted addresses with distinct (rig, name) pairs and the
    same session identifier, since ['-'] both joins the components and may
    occur in them. *)
Lemma sessionID_not_injective :
  parseAddress "a-b/c" = ("a-b", "c", None) /\
  parseAddress "a/b-c" = ("a", "b-c", None) /\
  ("a-b", "c") <> ("a", "b-c") /\
  addressToSessionID "a-b/c" = "gt-a-b-c" /\
  addressToSessionID "a/b-c" = "gt-a-b-c".
Proof. repeat split; try reflexivity. discriminate. Qed.

(** C1, amended: the session identifier of every accepted address is
    determined by the address: it is [gt-mayor] when the address begins with
    [mayor], and [gt-<rig>-<name>], a function of its (rig, name) pair,
    otherwise; and among the accepted addresses that do not begin with
    [mayor] and whose rig contains no ['-'], equal session identifiers come
    from equal (rig, name) pairs, and from equal addresses. *)
Theorem sessionID_injective (a1 a2 r1 n1 r2 n2 : string) :
  parseAddress a1 = (r1, n1, None) ->
  parseAddress a2 = (r2, n2, None) ->
  addressToSessionID a1 =
    (if HasPrefix a1 "mayor" then "gt-mayor" else "gt-" ++ r1 ++ "-" ++ n1) /\
  addressToSessionID a2 =
    (if HasPrefix a2 "mayor" then "gt-mayor" else "gt-" ++ r2 ++ "-" ++ n2) /\
  (HasPrefix a1 "mayor" = false ->
   HasPrefix a2 "mayor" = false ->
   ~ occurs dash r1 ->
   ~ occurs dash r2 ->
   addressToSessionID a1 = addressToSessionID a2 ->
   (r1, n1) = (r2, n2) /\ a1 = a2).
Proof.
  intros H1 H2.
  assert (F : forall a r n, parseAddress a = (r, n, None) ->
            addressToSessionID a =
              (if HasPrefix a "mayor" then "gt-mayor"
               else "gt-" ++ r ++ "-" ++ n)).
  { intros a r n H. destruct (HasPrefix a "mayor") eqn:M.
    - unfold addressToSessionID. now rewrite M.
    - now apply addressToSessionID_parsed. }
  split; [now apply F|]. split; [now apply F|].
  intros M1 M2 D1 D2.
  rewrite (addressToSessionID_parsed _ _ _ H1 M1).
  rewrite (addressToSessionID_parsed _ _ _ H2 M2).
  intro E. apply (append_inv_head "gt-") in E.
  assert (C1 : Cut (r1 ++ "-" ++ n1) dash = Some (r1, n1))
    by now apply Cut_app.
  assert (C2 : Cut (r2 ++ "-" ++ n2) dash = Some (r2, n2))
    by now apply Cut_app.
  rewrite E, C2 in C1. injection C1 as -> ->.
  split; [reflexivity|].
  apply parseAddress_ok in H1 as (-> & _), H2 as (-> & _). reflexivity.
Qed.

Lemma sessionID_injective_witness :
  addressToSessionID "gastown/furiosa" = "gt-gastown-furiosa" /\
  addressToSessionID "mayorette/worker" = "gt-mayor".
Proof.
  destruct (sessionID_injective "gastown/furiosa" "mayorette/worker"
              "gastown" "furiosa" "mayorette" "worker" eq_refl eq_refl)
    as (E1 & E2 & _).
  split; [exact E1 | exact E2].
Defined.

(* ================================================================== *)
(** * The mail router *)
(* ================================================================== *)

(** C6 fails: a message whose type is empty is not a Notification message,
    and yet gets no [msg-type] label. *)
Lemma msg_type_label_omitted_for_empty_type :
  let env := {| addressToIdentity := fun a => a;
                PriorityToBeads := fun _ => 2%Z;
                TypeNotification := "notification";
                TrimSpace := fun s => s;
                run := fun _ _ _ =>
                         {| cmd_err := None; cmd_stdout := ""; cmd_stderr := "" |} |} in
  let msg := {| msg_From := "mayor"; msg_To := "gastown/furiosa";
                msg_Subject := "status"; msg_Body := "report";
                msg_Priority := PriorityNormal; msg_Type := "";
                msg_ThreadID := ""; msg_ReplyTo := ""; msg_Pinned := false |} in
  msg_Type msg <> TypeNotification env /\
  sendLabels env msg = ["from:mayor"] /\
  ~ has_label "msg-type:" (sendLabels env msg).
Proof.
  simpl. split; [discriminate|]. split; [reflexivity|].
  intros [l [[<- | []] H]]. discriminate.
Qed.

Ltac label_cases :=
  repeat match goal with
         | H : has_label _ _ |- _ => destruct H as [? [? ?]]
         | H : In _ (_ :: _) |- _ => destruct H as [<- | H]
         | H : In _ [] |- _ => destruct H
         | H : HasPrefix _ _ = true |- _ => simpl in H; discriminate H
         end.

Ltac norm_tests :=
  repeat match goal with
         | H : is_empty ?s = true |- _ =>
             let E := fresh "E" in
             pose proof (proj1 (is_empty_true s) H) as E; clear H
         | H : is_empty ?s = false |- _ =>
             let E := fresh "E" in
             pose proof (proj1 (is_empty_false s) H) as E; clear H
         | H : (?a =? ?b) = true |- _ =>
             let E := fresh "E" in
             pose proof (proj1 (String.eqb_eq a b) H) as E; clear H
         | H : (?a =? ?b) = false |- _ =>
             let E := fresh "E" in
             pose proof (proj1 (String.eqb_neq a b) H) as E; clear H
         end.

Ltac find_label :=
  match goal with
  | |- has_label ?p ?ls =>
      match ls with
      | context [p ++ ?x] =>
          exists (p ++ x); split; [simpl; tauto | reflexivity]
      end
  end.

(** C6, amended: the label set always holds [from:<sender>]; it holds a
    [thread:] label exactly when the thread is non-empty, and then the one
    of the thread; a [reply-to:] label exactly when reply-to is non-empty;
    and a [msg-type:] label exactly when the type is non-empty and is not
    Notification. *)
Theorem sendLabels_encoding (env : MailEnv) (msg : Message) :
  let labels := sendLabels env msg in
  In ("from:" ++ addressToIdentity env (msg_From msg)) labels /\
  (has_label "thread:" labels <-> msg_ThreadID msg <> "") /\
  (msg_ThreadID msg <> "" -> In ("thread:" ++ msg_ThreadID msg) labels) /\
  (has_label "reply-to:" labels <-> msg_ReplyTo msg <> "") /\
  (msg_ReplyTo msg <> "" -> In ("reply-to:" ++ msg_ReplyTo msg) labels) /\
  (has_label "msg-type:" labels <->
     msg_Type msg <> "" /\ msg_Type msg <> TypeNotification env) /\
  (msg_Type msg <> "" -> msg_Type msg <> TypeNotification env ->
     In ("msg-type:" ++ msg_Type msg) labels).
Proof.
  unfold sendLabels, go_append.
  destruct (is_empty (msg_ThreadID msg)) eqn:Et;
  destruct (is_empty (msg_ReplyTo msg)) eqn:Er;
  destruct (is_empty (msg_Type msg)) eqn:Ey;
  destruct (msg_Type msg =? TypeNotification env) eqn:En;
  norm_tests; cbn [negb andb app];
  repeat split; intros;
    try (label_cases; fail);
    try congruence; try tauto;
    try (simpl; tauto);
    find_label.
Qed.

(** [notifyRecipient] never returns an error when there is no session to
    notify, and runs no command. *)
Lemma notifyRecipient_no_exec (r : Router) (msg : Message) (e : effect) :
  In e (trace (notifyRecipient r msg)) -> is_create e = false /\ is_pin e = false.
Proof.
  unfold notifyRecipient.
  destruct (is_empty (addressToSessionID (msg_To msg))); [intros []|].
  unfold HasSession, SendNotificationBanner, call.
  destruct (has_session (tmux r) (addressToSessionID (msg_To msg))) as [err|[|]];
    simpl; intros H; repeat (destruct H as [<- | H]; [now split|]); destruct H.
Qed.

Lemma filter_none {A : Type} (f : A -> bool) (l : list A) :
  (forall x, In x l -> f x = false) -> filter f l = [].
Proof.
  induction l as [|x l IH]; simpl; intro H; [reflexivity|].
  rewrite (H x) by now left. apply IH. intros y Hy. apply H. now right.
Qed.

Lemma sendArgs_create (env : MailEnv) (msg : Message) :
  exists rest, sendArgs env msg = "create" :: rest.
Proof.
  unfold sendArgs, go_append.
  destruct (Nat.ltb 0 (List.length (sendLabels env msg))); simpl; eauto.
Qed.

(** The calls of [Send] once the create has succeeded. *)
Lemma Send_created (env : MailEnv) (r : Router) (msg : Message) :
  cmd_err (run env (workDir r) "bd" (sendArgs env msg)) = None ->
  let issueID :=
    TrimSpace env (cmd_stdout (run env (workDir r) "bd" (sendArgs env msg))) in
  Send env r msg =
    ((Exec (workDir r) "bd" (sendArgs env msg) ::
      (if msg_Pinned msg && negb (is_empty issueID)
       then [Exec (workDir r) "bd" ["pin"; issueID]] else []) ++
      trace (notifyRecipient r msg))%list,
     inr tt).
Proof.
  intros Hc issueID. unfold Send. rewrite Hc. fold issueID.
  unfold bind, call, discard, ret, trace.
  destruct (msg_Pinned msg && negb (is_empty issueID)); simpl;
    now rewrite app_nil_r.
Qed.

(** C5: once the durable create has succeeded, [Send] returns success
    whatever the pin and the notification do; the create is run once; a pin
    is run only for a pinned message, and is run for every pinned message
    whose create printed an identifier. *)
Theorem Send_best_effort (env : MailEnv) (r : Router) (msg : Message) :
  cmd_err (run env (workDir r) "bd" (sendArgs env msg)) = None ->
  let issueID :=
    TrimSpace env (cmd_stdout (run env (workDir r) "bd" (sendArgs env msg))) in
  returned (Send env r msg) = None /\
  hd_error (trace (Send env r msg))
    = Some (Exec (workDir r) "bd" (sendArgs env msg)) /\
  List.length (filter is_create (trace (Send env r msg))) = 1 /\
  (forall e, In e (trace (Send env r msg)) -> is_pin e = true ->
     msg_Pinned msg = true /\ e = Exec (workDir r) "bd" ["pin"; issueID]) /\
  (msg_Pinned msg = true -> issueID <> "" ->
     In (Exec (workDir r) "bd" ["pin"; issueID]) (trace (Send env r msg))).
Proof.
  intros Hc issueID. rewrite (Send_created env r msg Hc). fold issueID.
  unfold returned, trace. cbn [fst snd hd_error].
  destruct (sendArgs_create env msg) as [rest Hargs].
  split; [reflexivity|]. split; [reflexivity|]. split; [|split].
  - cbn [filter is_create]. rewrite Hargs. cbn [String.eqb Ascii.eqb Bool.eqb andb].
    rewrite filter_app.
    rewrite (filter_none is_create (fst (notifyRecipient r msg)))
      by (intros x Hx; now apply (notifyRecipient_no_exec r msg x)).
    rewrite app_nil_r.
    destruct (msg_Pinned msg && negb (is_empty issueID)); reflexivity.
  - intros e [<- | He] Hp.
    + rewrite Hargs in Hp. discriminate Hp.
    + apply in_app_or in He as [He | He].
      * destruct (msg_Pinned msg) eqn:P; [|destruct He].
        destruct (negb (is_empty issueID)); [|destruct He].
        destruct He as [<- | []]. now split.
      * apply (notifyRecipient_no_exec r msg e) in He as [_ He]. congruence.
  - intros P Hid. apply is_empty_false in Hid. rewrite P, Hid.
    right. apply in_or_app. left. now left.
Qed.

(** A pinned message whose pin fails and whose banner fails is sent all the
    same. *)
Lemma Send_best_effort_witness :
  let failing := Some (ErrNew "exit status 1") in
  let env := {| addressToIdentity := fun a => a;
                PriorityToBeads := fun _ => 0%Z;
                TypeNotification := "notification";
                TrimSpace := fun s => s;
                run := fun _ _ args =>
                         match args with
                         | sub :: _ =>
                             if sub =? "create"
                             then {| cmd_err := None; cmd_stdout := "gt-42";
                                     cmd_stderr := "" |}
                             else {| cmd_err := failing; cmd_stdout := "";
                                     cmd_stderr := "no such issue" |}
                         | [] => {| cmd_err := failing; cmd_stdout := "";
                                    cmd_stderr := "" |}
                         end |} in
  let r := {| workDir := "/town";
              tmux := {| has_session := fun _ => inr true;
                         send_literal_text := fun _ _ => failing;
                         send_key_enter := fun _ => failing;
                         send_notification_banner := fun _ _ _ => failing |} |} in
  let msg := {| msg_From := "mayor"; msg_To := "gastown/furiosa";
                msg_Subject := "status"; msg_Body := "report";
                msg_Priority := PriorityUrgent; msg_Type := "task";
                msg_ThreadID := ""; msg_ReplyTo := ""; msg_Pinned := true |} in
  returned (Send env r msg) = None.
Proof.
  intros failing env r msg.
  apply (Send_best_effort env r msg). reflexivity.
Defined.

(* ================================================================== *)
(** * The nudge *)
(* ================================================================== *)

Lemma trace_bind {A B : Type} (m : M A) (k : A -> M B) :
  trace (bind m k) =
    (trace m ++ match snd m with inr a => trace (k a) | inl _ => [] end)%list.
Proof.
  destruct m as [t [e|a]]; simpl.
  - now rewrite app_nil_r.
  - now destruct (k a).
Qed.

Lemma trace_wrap {A : Type} (ctx : string) (m : M A) :
  trace (wrap ctx m) = trace m.
Proof. now destruct m as [t [e|a]]. Qed.

Lemma logNudgeEvent_deliveries (env : CmdEnv) (target message : string) :
  deliveries (trace (logNudgeEvent env target message)) = [] /\
  snd (logNudgeEvent env target message) = inr tt.
Proof.
  unfold logNudgeEvent. destruct (FindFromCwd env) as [townRoot [err|]].
  - now split.
  - destruct (is_empty townRoot); now split.
Qed.

(** What follows a delivered nudge, printing and logging, sends nothing. *)
Lemma after_nudge_deliveries (env : CmdEnv) (o : output)
  (sender rigName target message : string) :
  deliveries
    (trace (bind (emit (Stdout o)) (fun _ =>
            bind (logNudgeEvent env target message) (fun _ =>
            discard (emit (LogFeed sender rigName target message)))))) = [].
Proof.
  rewrite !trace_bind. simpl.
  destruct (logNudgeEvent_deliveries env target message) as [Hd ->].
  unfold deliveries in *. rewrite filter_app, Hd. reflexivity.
Qed.

(** The calls of a nudge of one session and of what follows it. *)
Lemma nudge_then_deliveries (env : CmdEnv) (ctx : string) (o : output)
  (session sender rigName target message : string) :
  deliveries
    (trace (bind (wrap ctx (NudgeSession (env_tmux env) session message)) (fun _ =>
            bind (emit (Stdout o)) (fun _ =>
            bind (logNudgeEvent env target message) (fun _ =>
            discard (emit (LogFeed sender rigName target message))))))) =
  [SendLiteralText session message; SettleDelay 500; SendKeyEnter session].
Proof.
  rewrite trace_bind, trace_wrap. unfold deliveries. rewrite filter_app.
  change (filter is_delivery (trace (NudgeSession (env_tmux env) session message)))
    with [SendLiteralText session message; SettleDelay 500; SendKeyEnter session].
  destruct (snd (wrap ctx (NudgeSession (env_tmux env) session message))).
  - reflexivity.
  - fold (deliveries
            (trace (bind (emit (Stdout o)) (fun _ =>
                    bind (logNudgeEvent env target message) (fun _ =>
                    discard (emit (LogFeed sender rigName target message))))))).
    now rewrite after_nudge_deliveries.
Qed.

(** C2: a nudge of a session issues the literal paste of the text, then the
    settle delay of 500 ms, then one Enter, whatever the text; and the
    delivery operations of a run of the nudge command are none at all, or
    exactly these three, for one session and the message with its sender
    tag. *)
Theorem nudge_three_operations (t : Tmux) (session text : string) :
  trace (NudgeSession t session text) =
    [SendLiteralText session text; SettleDelay 500; SendKeyEnter session] /\
  forall (env : CmdEnv) (target message : string),
    deliveries (trace (runNudge env target message)) = [] \/
    exists session',
      deliveries (trace (runNudge env target message)) =
        [SendLiteralText session' ("[from " ++ senderOf env ++ "] " ++ message);
         SettleDelay 500;
         SendKeyEnter session'].
Proof.
  split; [reflexivity|].
  intros env target message. unfold runNudge.
  destruct (target =? "deacon").
  - rewrite trace_bind, trace_wrap. unfold HasSession, call.
    destruct (has_session (env_tmux env) DeaconSessionName) as [e|[|]];
      cbn [snd wrap trace fst negb app].
    + now left.
    + right. exists DeaconSessionName.
      change (deliveries (HasSessionQuery DeaconSessionName :: ?l))
        with (deliveries l).
      apply nudge_then_deliveries.
    + now left.
  - destruct (Contains target slash).
    + rewrite trace_bind. unfold parsed.
      destruct (parseAddress target) as [[rigName polecatName] [err|]];
        cbn [snd ret fail trace fst app]; [now left|].
      rewrite trace_bind.
      destruct (HasPrefix polecatName "crew/").
      * right. eexists. cbn [ret snd trace fst app].
        apply nudge_then_deliveries.
      * unfold getSessionManager.
        destruct (FindFromCwdOrError env) as [e|townRoot];
          [now left|].
        destruct (GetRig env townRoot rigName) as [e|rig]; [now left|].
        right. eexists. cbn [bind ret snd trace fst app].
        apply nudge_then_deliveries.
    + rewrite trace_bind, trace_wrap. unfold HasSession, call.
      destruct (has_session (env_tmux env) target) as [e|[|]];
        cbn [snd wrap trace fst negb app].
      * now left.
      * right. exists target.
        change (deliveries (HasSessionQuery target :: ?l)) with (deliveries l).
        apply nudge_then_deliveries.
      * now left.
Qed.




(** A nudge of a raw session name that exists is delivered to it. *)
Example nudge_session_present :
  let t := {| has_session := fun s => inr (s =? "gt-gastown-furiosa");
              send_literal_text := fun _ _ => None;
              send_key_enter := fun _ => None;
              send_notification_banner := fun _ _ _ => None |} in
  let env := {| env_tmux := t;
                GetRole := inr {| role_Role := RoleWitness; role_Rig := "gastown";
                                  role_Polecat := "" |};
                FindFromCwdOrError := inr "/town";
                FindFromCwd := ("/town", None);
                GetRig := fun _ name => inl (ErrRigNotFound name);
                SessionName := fun _ polecat => "gt-" ++ polecat;
                crewSessionName := fun rigName crew => "gt-" ++ rigName ++ "-crew-" ++ crew |} in
  runNudge env "gt-gastown-furiosa" "status?" =
    ([HasSessionQuery "gt-gastown-furiosa";
      SendLiteralText "gt-gastown-furiosa" "[from gastown/witness] status?";
      SettleDelay 500;
      SendKeyEnter "gt-gastown-furiosa";
      Stdout (OutNudgedSession "gt-gastown-furiosa");
      LogNudge "/town" "gt-gastown-furiosa" "[from gastown/witness] status?";
      LogFeed "gastown/witness" "" "gt-gastown-furiosa"
              "[from gastown/witness] status?"],
     inr tt).
Proof. reflexivity. Qed.

(* ================================================================== *)
(** * The wisp ledger *)
(* ================================================================== *)

Module WispLedgerProofs.
Import WispLedger.

Lemma has_id_true (i : RecordID) (m : Molecule) :
  has_id i m = true <-> mol_id m = i.
Proof. unfold has_id. apply Nat.eqb_eq. Qed.

Lemma has_id_false (i : RecordID) (m : Molecule) :
  has_id i m = false <-> mol_id m <> i.
Proof. unfold has_id. apply Nat.eqb_neq. Qed.

Lemma find_wisp_Some (i : RecordID) (L : Ledger) (m : Molecule) :
  find_wisp i L = Some m -> In m (ephemeral L) /\ mol_id m = i.
Proof.
  unfold find_wisp. intro H. apply find_some in H as [H1 H2].
  now apply has_id_true in H2.
Qed.

Lemma find_wisp_None (i : RecordID) (L : Ledger) :
  find_wisp i L = None -> ~ in_ephemeral i L.
Proof.
  unfold find_wisp. intros H [m [Hin Hid]].
  apply (find_none _ _ H) in Hin. apply has_id_false in Hin. contradiction.
Qed.

Lemma find_molecule_Some (i : RecordID) (rs : list DurableRecord) (m : Molecule) :
  find_molecule i rs = Some m ->
  (exists a, In (DMolecule m a) rs) /\ mol_id m = i.
Proof.
  induction rs as [|[x a|d] rs IH]; simpl; intro H; [discriminate| |].
  - destruct (has_id i x) eqn:E.
    + injection H as ->. apply has_id_true in E. split; [|exact E].
      exists a. now left.
    + destruct (IH H) as [[a' Ha] Hid]. split; [|exact Hid].
      exists a'. now right.
  - destruct (IH H) as [[a' Ha] Hid]. split; [|exact Hid].
    exists a'. now right.
Qed.

Lemma find_molecule_None (i : RecordID) (rs : list DurableRecord) :
  find_molecule i rs = None ->
  forall m a, In (DMolecule m a) rs -> mol_id m <> i.
Proof.
  induction rs as [|[x a|d] rs IH]; simpl; intros H m b Hin; [destruct Hin| |].
  - destruct (has_id i x) eqn:E; [discriminate|].
    destruct Hin as [Heq | Hin].
    + injection Heq as <- <-. now apply has_id_false.
    + now apply (IH H m b).
  - destruct Hin as [Heq | Hin]; [discriminate|]. now apply (IH H m b).
Qed.

(** The records of a store after the steps of a molecule were replaced, and
    after a molecule was marked abandoned: the same identifiers and flags,
    the same digests. *)
Lemma In_ephemeral_stepped (i : RecordID) (steps : list Step) (now : nat)
  (l : list Molecule) (m : Molecule) :
  In m (map (fun x => if has_id i x then with_steps x steps now else x) l) ->
  exists x, In x l /\ mol_id m = mol_id x /\ mol_wisp m = mol_wisp x.
Proof.
  intro H. apply in_map_iff in H as [x [<- Hx]]. exists x.
  destruct (has_id i x); auto.
Qed.

Lemma In_durable_updated (g : DurableRecord -> DurableRecord)
  (rs : list DurableRecord) :
  (forall x a, exists y b, g (DMolecule x a) = DMolecule y b
                           /\ mol_id y = mol_id x /\ mol_wisp y = mol_wisp x) ->
  (forall d, g (DDigest d) = DDigest d) ->
  (forall m a, In (DMolecule m a) (map g rs) ->
     exists x b, In (DMolecule x b) rs
                 /\ mol_id m = mol_id x /\ mol_wisp m = mol_wisp x) /\
  (forall d, In (DDigest d) (map g rs) <-> In (DDigest d) rs).
Proof.
  intros Hm Hd. split.
  - intros m a H. apply in_map_iff in H as [[x b|d] [E Hx]].
    + destruct (Hm x b) as [y [c [Ey [Hi Hw]]]]. rewrite Ey in E.
      injection E as <- <-. eauto.
    + rewrite Hd in E. discriminate.
  - intro d. split; intro H.
    + apply in_map_iff in H as [[x b|d'] [E Hx]].
      * destruct (Hm x b) as [y [c [Ey _]]]. rewrite Ey in E. discriminate.
      * rewrite Hd in E. now rewrite <- E.
    + apply in_map_iff. exists (DDigest d). auto.
Qed.

Lemma restep_keeps (i : RecordID) (steps : list Step) (now : nat) :
  (forall x a, exists y b, restep i steps now (DMolecule x a) = DMolecule y b
                           /\ mol_id y = mol_id x /\ mol_wisp y = mol_wisp x) /\
  (forall d, restep i steps now (DDigest d) = DDigest d).
Proof.
  split; [|reflexivity]. intros x a. simpl.
  destruct (has_id i x); eauto.
Qed.

Lemma abandon_keeps (i : RecordID) :
  (forall x a, exists y b, abandon i (DMolecule x a) = DMolecule y b
                           /\ mol_id y = mol_id x /\ mol_wisp y = mol_wisp x) /\
  (forall d, abandon i (DDigest d) = DDigest d).
Proof.
  split; [|reflexivity]. intros x a. simpl.
  destruct (has_id i x); eauto.
Qed.

Lemma well_formed_empty : well_formed empty.
Proof. repeat split; simpl; intros; contradiction. Qed.

Lemma well_formed_bond (P : Protos) (protoName : string) (wisp : bool)
  (pid : option nat) (now : nat) (L : Ledger) :
  well_formed L -> well_formed (snd (bond P protoName wisp pid now L)).
Proof.
  intros (He & Hd & Hg & Hx). unfold bond. destruct wisp; simpl.
  - repeat split; intros; simpl in *.
    + apply in_app_or in H as [H | [<- | []]]; [now apply He | reflexivity].
    + apply in_app_or in H as [H | [<- | []]]; simpl;
        [apply He in H; lia | lia].
    + now apply (Hd m a).
    + apply Hd in H. lia.
    + apply Hg in H. lia.
    + intros [m0 [Hin Hid]]; simpl in Hin, Hid.
      apply in_app_or in Hin as [Hin | [<- | []]].
      * apply (proj2 (Hg d H)). now exists m0.
      * simpl in Hid. apply Hg in H. lia.
    + apply in_app_or in H as [H | [<- | []]].
      * now apply (Hx m m' a).
      * simpl. apply Hd in H0. lia.
  - repeat split; intros; simpl in *.
    + now apply He.
    + apply He in H. lia.
    + apply in_app_or in H as [H | [E | []]];
        [now apply (Hd m a) | now injection E as <- <-].
    + apply in_app_or in H as [H | [E | []]];
        [apply Hd in H; lia | injection E as <- <-; simpl; lia].
    + apply in_app_or in H as [H | [E | []]]; [|discriminate].
      apply Hg in H. lia.
    + apply in_app_or in H as [H | [E | []]]; [|discriminate].
      intros [m0 [Hin Hid]]; simpl in Hin, Hid. apply (proj2 (Hg d H)). now exists m0.
    + apply in_app_or in H0 as [H0 | [E | []]].
      * now apply (Hx m m' a).
      * injection E as <- <-. simpl. apply He in H. lia.
Qed.

Lemma well_formed_step (i : RecordID) (sid : string) (now : nat)
  (L L' : Ledger) :
  well_formed L -> step i sid now L = inr L' -> well_formed L'.
Proof.
  intros (He & Hd & Hg & Hx). unfold step.
  destruct (find_wisp i L) as [m|] eqn:F.
  - destruct (complete_step sid (mol_steps m)) as [steps|]; [|discriminate].
    intro E. injection E as <-.
    repeat split; intros; simpl in *.
    + apply In_ephemeral_stepped in H as (x & Hin & Hi & Hw).
      rewrite Hw. now apply He.
    + apply In_ephemeral_stepped in H as (x & Hin & Hi & Hw).
      rewrite Hi. now apply He.
    + now apply (Hd m0 a).
    + now apply (Hd m0 a).
    + now apply Hg.
    + intros [m0 [Hin Hid]]; simpl in Hin, Hid.
      apply In_ephemeral_stepped in Hin as (x & Hin & Hi & Hw).
      apply (proj2 (Hg d H)). exists x. split; [exact Hin | congruence].
    + apply In_ephemeral_stepped in H as (x & Hin & Hi & Hw).
      rewrite Hi. now apply (Hx x m' a).
  - destruct (find_molecule i (durable L)) as [m|]; [|discriminate].
    destruct (complete_step sid (mol_steps m)) as [steps|]; [|discriminate].
    intro E. injection E as <-.
    destruct (restep_keeps i steps now) as [K1 K2].
    destruct (In_durable_updated _ (durable L) K1 K2) as [Um Ud].
    repeat split; intros; simpl in *.
    + now apply He.
    + now apply He.
    + apply Um in H as (x & b & Hin & Hi & Hw). rewrite Hw. now apply (Hd x b).
    + apply Um in H as (x & b & Hin & Hi & Hw). rewrite Hi. now apply (Hd x b).
    + apply Ud in H. now apply Hg.
    + apply Ud in H. intros [m0 [Hin Hid]]; simpl in Hin, Hid. apply (proj2 (Hg d H)).
      now exists m0.
    + apply Um in H0 as (x & b & Hin & Hi & Hw). rewrite Hi.
      eapply Hx; eassumption.
Qed.

Lemma well_formed_squash (P : Protos) (i : RecordID) (summary : string)
  (now : nat) (L L' : Ledger) (d : RecordID) :
  well_formed L -> squash P i summary now L = inr (d, L') -> well_formed L'.
Proof.
  intros (He & Hd & Hg & Hx). unfold squash.
  destruct (find_wisp i L) as [m|] eqn:F.
  - intro E. injection E as _ <-. apply find_wisp_Some in F as [Fin Fid].
    repeat split; intros; simpl in *.
    + apply filter_In in H as [H _]. now apply He.
    + apply filter_In in H as [H _]. apply He in H. lia.
    + apply in_app_or in H as [H | [E | []]]; [|discriminate].
      now apply (Hd m0 a).
    + apply in_app_or in H as [H | [E | []]]; [|discriminate].
      apply Hd in H. lia.
    + apply in_app_or in H as [H | [E | []]].
      * apply Hg in H. lia.
      * injection E as <-. simpl. apply He in Fin. lia.
    + intros [m0 [Hin Hid]]; simpl in Hin, Hid. apply filter_In in Hin as [Hin Hne].
      apply in_app_or in H as [H | [E | []]].
      * apply (proj2 (Hg d0 H)). now exists m0.
      * injection E as <-. simpl in Hid.
        apply negb_true_iff, has_id_false in Hne. congruence.
    + apply filter_In in H as [H _].
      apply in_app_or in H0 as [H0 | [E | []]]; [|discriminate].
      now apply (Hx m0 m' a).
  - destruct (find_molecule i (durable L)) as [m|] eqn:G; [|discriminate].
    intro E. injection E as _ <-.
    apply find_molecule_Some in G as [[a Gin] Gid].
    apply find_wisp_None in F.
    repeat split; intros; simpl in *.
    + now apply He.
    + apply He in H. lia.
    + apply in_app_or in H as [H | [E | []]]; [|discriminate].
      now apply (Hd m0 a0).
    + apply in_app_or in H as [H | [E | []]]; [|discriminate].
      apply Hd in H. lia.
    + apply in_app_or in H as [H | [E | []]].
      * apply Hg in H. lia.
      * injection E as <-. simpl. apply Hd in Gin. lia.
    + intros [m0 [Hin Hid]]; simpl in Hin, Hid.
      apply in_app_or in H as [H | [E | []]].
      * apply (proj2 (Hg d0 H)). now exists m0.
      * injection E as <-. simpl in Hid. apply F. exists m0. split; congruence.
    + apply in_app_or in H0 as [H0 | [E | []]]; [|discriminate].
      now apply (Hx m0 m' a0).
Qed.

Lemma well_formed_burn (i : RecordID) (L : Ledger) :
  well_formed L -> well_formed (burn i L).
Proof.
  intros (He & Hd & Hg & Hx). unfold burn.
  destruct (find_wisp i L) as [m|] eqn:F.
  - repeat split; intros; simpl in *.
    + apply filter_In in H as [H _]. now apply He.
    + apply filter_In in H as [H _]. now apply He.
    + now apply (Hd m0 a).
    + now apply (Hd m0 a).
    + now apply Hg.
    + intros [m0 [Hin Hid]]; simpl in Hin, Hid. apply filter_In in Hin as [Hin _].
      apply (proj2 (Hg d H)). now exists m0.
    + apply filter_In in H as [H _]. now apply (Hx m0 m' a).
  - destruct (abandon_keeps i) as [K1 K2].
    destruct (In_durable_updated _ (durable L) K1 K2) as [Um Ud].
    repeat split; intros; simpl in *.
    + now apply He.
    + now apply He.
    + apply Um in H as (x & b & Hin & Hi & Hw). rewrite Hw. now apply (Hd x b).
    + apply Um in H as (x & b & Hin & Hi & Hw). rewrite Hi. now apply (Hd x b).
    + apply Ud in H. now apply Hg.
    + apply Ud in H. intros [m0 [Hin Hid]]; simpl in Hin, Hid. apply (proj2 (Hg d H)).
      now exists m0.
    + apply Um in H0 as (x & b & Hin & Hi & Hw). rewrite Hi.
      eapply Hx; eassumption.
Qed.

Lemma well_formed_apply (P : Protos) (L : Ledger) (o : op) :
  well_formed L -> well_formed (apply P L o).
Proof.
  intro H. destruct o as [p w pid now | i sid now | i s now | i]; simpl.
  - now apply well_formed_bond.
  - destruct (step i sid now L) as [e|L'] eqn:E; [exact H|].
    now apply (well_formed_step i sid now L L').
  - destruct (squash P i s now L) as [e|[d L']] eqn:E; [exact H|].
    now apply (well_formed_squash P i s now L L' d).
  - now apply well_formed_burn.
Qed.

Lemma well_formed_run (P : Protos) (ops : list op) (L : Ledger) :
  well_formed L -> well_formed (run P ops L).
Proof.
  revert L. induction ops as [|o ops IH]; intros L H; [exact H|].
  simpl. apply IH. now apply well_formed_apply.
Qed.

Lemma well_formed_reachable (P : Protos) (L : Ledger) :
  reachable P L -> well_formed L.
Proof. intros [ops ->]. apply well_formed_run, well_formed_empty. Qed.

(** C7: in every ledger that the lifecycle operations (bond, step, squash,
    burn) produce, a molecule in the ephemeral store is wisp-flagged and is
    not in the durable store, a molecule in the durable store is not
    wisp-flagged and is not in the ephemeral store, and no molecule is in
    both stores. *)
Theorem stores_separated (P : Protos) (L : Ledger) :
  reachable P L ->
  (forall m, In m (ephemeral L) ->
     mol_wisp m = true /\ ~ in_durable (mol_id m) L) /\
  (forall m a, In (DMolecule m a) (durable L) ->
     mol_wisp m = false /\ ~ in_ephemeral (mol_id m) L) /\
  (forall i, ~ (in_ephemeral i L /\ in_durable i L)).
Proof.
  intro R. apply well_formed_reachable in R as (He & Hd & Hg & Hx).
  split; [|split].
  - intros m Hin. split; [now apply He|].
    intros [m' [a [Hin' Hid]]]. now apply (Hx m m' a).
  - intros m a Hin. split; [now apply (Hd m a)|].
    intros [m' [Hin' Hid]]. now apply (Hx m' m a).
  - intros i [[m [Hin Hid]] [m' [a [Hin' Hid']]]].
    apply (Hx m m' a Hin Hin'). congruence.
Qed.

Lemma stores_separated_witness :
  let P := {| protoSteps := fun _ => ["inbox-check"; "health-scan"];
              parentOf := fun m => mol_protoName m;
              titleOf := fun m _ => mol_protoName m |} in
  let ops := [Bond "mol-deacon-patrol" true (Some 4242) 10;
              Bond "mol-polecat-work" false None 11;
              StepOp 0 "inbox-check" 12;
              StepOp 1 "health-scan" 13;
              Squash 0 "all healthy" 14;
              Bond "mol-witness-patrol" true None 15;
              Burn 1] in
  let L := run P ops empty in
  map mol_id (ephemeral L) = [3] /\
  ~ (in_ephemeral 3 L /\ in_durable 3 L).
Proof.
  intros P ops L. split; [reflexivity|].
  apply (stores_separated P L). exists ops. reflexivity.
Defined.

Lemma never_durable_apply (P : Protos) (i : RecordID) (L : Ledger) (o : op) :
  never_durable i L -> never_durable i (apply P L o).
Proof.
  intros [Hlt Hn]. unfold never_durable.
  destruct o as [p w pid now | j sid now | j s now | j]; simpl.
  - unfold bond. destruct w; simpl; split; try lia; try exact Hn.
    intros [m [a [Hin Hid]]]. simpl in Hin.
    apply in_app_or in Hin as [Hin | [E | []]].
    + apply Hn. now exists m, a.
    + injection E as <- <-. simpl in Hid. lia.
  - unfold step. destruct (find_wisp j L) as [m|].
    + destruct (complete_step sid (mol_steps m)); now split.
    + destruct (find_molecule j (durable L)) as [m|]; [|now split].
      destruct (complete_step sid (mol_steps m)) as [steps|]; [|now split].
      split; [exact Hlt|]. intros [m' [a [Hin Hid]]]. simpl in Hin.
      destruct (restep_keeps j steps now) as [K1 K2].
      destruct (In_durable_updated _ (durable L) K1 K2) as [Um _].
      apply Um in Hin as (x & b & Hin & Hi & _). apply Hn.
      exists x, b. split; [exact Hin | congruence].
  - unfold squash. destruct (find_wisp j L) as [m|].
    + split; simpl; [lia|]. intros [m' [a [Hin Hid]]]. simpl in Hin.
      apply in_app_or in Hin as [Hin | [E | []]]; [|discriminate].
      apply Hn. now exists m', a.
    + destruct (find_molecule j (durable L)) as [m|]; [|now split].
      split; simpl; [lia|]. intros [m' [a [Hin Hid]]]. simpl in Hin.
      apply in_app_or in Hin as [Hin | [E | []]]; [|discriminate].
      apply Hn. now exists m', a.
  - unfold burn. destruct (find_wisp j L) as [m|]; [now split|].
    split; [exact Hlt|]. intros [m' [a [Hin Hid]]]. simpl in Hin.
    destruct (abandon_keeps j) as [K1 K2].
    destruct (In_durable_updated _ (durable L) K1 K2) as [Um _].
    apply Um in Hin as (x & b & Hin & Hi & _). apply Hn.
    exists x, b. split; [exact Hin | congruence].
Qed.

Lemma never_durable_run (P : Protos) (i : RecordID) (ops : list op) (L : Ledger) :
  never_durable i L -> never_durable i (run P ops L).
Proof.
  revert L. induction ops as [|o ops IH]; intros L H; [exact H|].
  simpl. apply IH. now apply never_durable_apply.
Qed.

Lemma never_durable_find (i : RecordID) (L : Ledger) :
  never_durable i L -> find_molecule i (durable L) = None.
Proof.
  intros [_ Hn]. destruct (find_molecule i (durable L)) as [m|] eqn:F;
    [|reflexivity].
  apply find_molecule_Some in F as [[a Hin] Hid]. exfalso. apply Hn.
  now exists m, a.
Qed.

Lemma find_app_fresh (f : Molecule -> bool) (l : list Molecule) (m : Molecule) :
  (forall x, In x l -> f x = false) -> f m = true ->
  find f (l ++ [m]) = Some m.
Proof.
  induction l as [|x l IH]; simpl; intros Hl Hm.
  - now rewrite Hm.
  - rewrite (Hl x) by now left. apply IH; [|exact Hm].
    intros y Hy. apply Hl. now right.
Qed.

(** A wisp just bonded is found in the ephemeral store, once. *)
Lemma bond_wisp_found (P : Protos) (protoName : string) (pid : option nat)
  (now : nat) (L : Ledger) :
  well_formed L ->
  let m := fst (bond P protoName true pid now L) in
  let L1 := snd (bond P protoName true pid now L) in
  mol_id m = next_id L /\
  find_wisp (mol_id m) L1 = Some m /\
  wisp_count (mol_id m) L1 = 1 /\
  never_durable (mol_id m) L1.
Proof.
  intros (He & Hd & Hg & Hx). simpl.
  assert (Hfresh : forall x, In x (ephemeral L) -> has_id (next_id L) x = false).
  { intros x Hin. apply has_id_false. apply He in Hin. lia. }
  split; [reflexivity|]. split; [|split].
  - unfold find_wisp. simpl. apply find_app_fresh; [exact Hfresh|].
    now apply has_id_true.
  - unfold wisp_count. simpl. rewrite filter_app, (filter_none _ _ Hfresh).
    simpl. unfold has_id. simpl. now rewrite Nat.eqb_refl.
  - split; simpl; [lia|]. intros [m' [a [Hin Hid]]]. simpl in Hin.
    apply Hd in Hin. lia.
Qed.

(** Squashing a wisp that is in the ephemeral store of a well-formed ledger
    removes its records and leaves one digest that refers to it. *)
Lemma squash_wisp (P : Protos) (i : RecordID) (summary : string) (now : nat)
  (L : Ledger) (m : Molecule) :
  well_formed L -> find_wisp i L = Some m ->
  exists L', squash P i summary now L = inr (next_id L, L') /\
    wisp_count i L' = 0 /\
    digest_count i L' = 1 /\
    In (DDigest (digest_of P m summary now L)) (durable L').
Proof.
  intros (He & Hd & Hg & Hx) F. unfold squash. rewrite F.
  eexists. split; [reflexivity|].
  apply find_wisp_Some in F as [Fin Fid].
  unfold wisp_count, digest_count. simpl. split; [|split].
  - rewrite filter_none; [reflexivity|].
    intros x Hin. apply filter_In in Hin as [_ Hne].
    now apply negb_true_iff in Hne.
  - rewrite filter_app. rewrite filter_none.
    + simpl. rewrite Fid, Nat.eqb_refl. reflexivity.
    + intros [x a|d] Hin; [reflexivity|]. simpl.
      apply Nat.eqb_neq. intro E. apply (proj2 (Hg d Hin)).
      exists m. split; [exact Fin | congruence].
  - apply in_or_app. right. now left.
Qed.

(** C8: after a bond with [wisp=true] the wisp is in the ephemeral store
    and a squash of it succeeds; and whenever a later squash of it succeeds,
    whatever operations came in between, no wisp record with its id remains
    and exactly one digest of the durable store has it as [squashedFrom],
    the digest the squash returned, carrying the summary. *)
Theorem bond_wisp_then_squash (P : Protos) (L : Ledger) (protoName : string)
  (pid : option nat) (now : nat) (ops : list op) (summary : string)
  (now' : nat) :
  reachable P L ->
  let m := fst (bond P protoName true pid now L) in
  let L1 := snd (bond P protoName true pid now L) in
  wisp_count (mol_id m) L1 = 1 /\
  (exists d L3, squash P (mol_id m) summary now' L1 = inr (d, L3)) /\
  (forall d L3,
     squash P (mol_id m) summary now' (run P ops L1) = inr (d, L3) ->
     wisp_count (mol_id m) L3 = 0 /\
     digest_count (mol_id m) L3 = 1 /\
     exists dg, In (DDigest dg) (durable L3) /\ dig_id dg = d /\
                dig_squashedFrom dg = mol_id m /\
                dig_description dg = summary).
Proof.
  intros R m L1. apply well_formed_reachable in R.
  destruct (bond_wisp_found P protoName pid now L R) as (Hid & Hf & Hc & Hn).
  fold m L1 in Hid, Hf, Hc, Hn.
  assert (W1 : well_formed L1) by now apply well_formed_bond.
  split; [exact Hc|]. split.
  - destruct (squash_wisp P (mol_id m) summary now' L1 m W1 Hf) as [L3 [E _]].
    now exists (next_id L1), L3.
  - intros d L3 E.
    pose proof (well_formed_run P ops L1 W1) as W2.
    pose proof (never_durable_run P (mol_id m) ops L1 Hn) as N2.
    destruct (find_wisp (mol_id m) (run P ops L1)) as [m2|] eqn:F.
    + destruct (squash_wisp P (mol_id m) summary now' _ m2 W2 F)
        as [L' (E' & C1 & C2 & Hin)].
      rewrite E in E'. injection E' as -> ->.
      split; [exact C1|]. split; [exact C2|].
      exists (digest_of P m2 summary now' (run P ops L1)).
      split; [exact Hin|]. simpl.
      apply find_wisp_Some in F as [_ F]. auto.
    + unfold squash in E. rewrite F, (never_durable_find _ _ N2) in E.
      discriminate.
Qed.

Lemma bond_wisp_then_squash_witness :
  let P := {| protoSteps := fun _ => ["inbox-check"; "health-scan"];
              parentOf := fun m => mol_protoName m;
              titleOf := fun m _ => mol_protoName m |} in
  let L := run P [Bond "mol-polecat-work" false None 1;
                  Bond "mol-witness-patrol" true None 2;
                  Squash 0 "handed in" 3] empty in
  let m := fst (bond P "proto" true (Some 4242) 10 L) in
  let L1 := snd (bond P "proto" true (Some 4242) 10 L) in
  wisp_count (mol_id m) L1 = 1.
Proof.
  intros P L m L1.
  apply (bond_wisp_then_squash P L "proto" (Some 4242) 10
           [StepOp 3 "inbox-check" 11; Burn 1] "done" 12).
  exists [Bond "mol-polecat-work" false None 1;
          Bond "mol-witness-patrol" true None 2;
          Squash 0 "handed in" 3].
  reflexivity.
Defined.

(** The patrol cycle of the architecture document, run on the empty
    stores: bond a wisp, complete its steps, squash it. *)
Example patrol_cycle :
  let P := {| protoSteps := fun _ => ["inbox-check"; "health-scan"];
              parentOf := fun m => mol_protoName m;
              titleOf := fun m _ => mol_protoName m |} in
  run P [Bond "mol-deacon-patrol" true (Some 4242) 10;
         StepOp 0 "inbox-check" 11;
         StepOp 0 "health-scan" 12;
         Squash 0 "done" 13] empty =
  {| ephemeral := [];
     durable := [DDigest {| dig_id := 1;
                            dig_title := "mol-deacon-patrol";
                            dig_description := "done";
                            dig_parentRef := "mol-deacon-patrol";
                            dig_squashedFrom := 0;
                            dig_createdAt := 13 |}];
     next_id := 2 |}.
Proof. reflexivity. Qed.

(** Burning a wisp removes it; burning a regular molecule keeps the record
    and marks it abandoned. *)
Example burn_both :
  let P := {| protoSteps := fun _ => [];
              parentOf := fun m => mol_protoName m;
              titleOf := fun m _ => mol_protoName m |} in
  let L := run P [Bond "mol-deacon-patrol" true None 1;
                  Bond "mol-polecat-work" false None 2;
                  Burn 0; Burn 1] empty in
  ephemeral L = [] /\
  durable L = [DMolecule {| mol_id := 1; mol_protoName := "mol-polecat-work";
                            mol_steps := []; mol_wisp := false;
                            mol_processID := None; mol_updatedAt := 2 |} true].
Proof. split; reflexivity. Qed.

End WispLedgerProofs.

(* ================================================================== *)
(** * More on addresses *)
(* ================================================================== *)

(** X1: an address is accepted with the components [rig] and [name]
    exactly when it is [rig], a slash and [name] with a non-empty [rig]
    without slash and a non-empty [name]: joining the components gives the
    address back, and parsing the joined components gives them back. *)
Theorem parseAddress_round_trip (addr rig name : string) :
  parseAddress addr = (rig, name, None) <->
  rig ++ "/" ++ name = addr /\ rig <> "" /\ ~ occurs slash rig /\ name <> "".
Proof.
  split.
  - intro H. apply parseAddress_ok in H as (-> & Hn & Hr & Hm). tauto.
  - intros (<- & Hr & Hn & Hm). apply parseAddress_ok. tauto.
Qed.

(** X2: the router does not recognise an address, and gives the empty
    session identifier, exactly when the address does not begin with
    [mayor] and either has no slash or has nothing after its first slash. *)
Theorem addressToSessionID_empty_iff (address : string) :
  addressToSessionID address = "" <->
  HasPrefix address "mayor" = false /\
  (~ occurs slash address \/
   exists rig, ~ occurs slash rig /\ address = rig ++ "/").
Proof.
  unfold addressToSessionID. destruct (HasPrefix address "mayor") eqn:M.
  - split; [discriminate | intros [H _]; discriminate].
  - simpl. destruct (Cut address slash) as [[rig target]|] eqn:C.
    + apply Cut_Some in C as [-> Hn]. destruct target as [|c target]; simpl.
      * split; [|reflexivity]. intros _. split; [reflexivity|].
        right. now exists rig.
      * split; [discriminate|]. intros [_ [H | [rig' [Hn' E]]]].
        -- exfalso. apply H. clear -Hn. induction rig as [|x rig IH]; simpl.
           ++ now left.
           ++ right. apply IH. simpl in Hn. tauto.
        -- exfalso.
           assert (C1 : Cut (rig ++ String slash (String c target)) slash
                        = Some (rig, String c target)) by now apply Cut_app.
           assert (C2 : Cut (rig' ++ "/") slash = Some (rig', ""))
             by now apply Cut_app.
           rewrite E, C2 in C1. discriminate.
    + apply Cut_None in C. split; [|reflexivity]. intros _.
      split; [reflexivity | now left].
Qed.

(** X3: a session identifier is empty or begins with [gt-]; and every
    address that [parseAddress] accepts has a non-empty one. *)
Theorem addressToSessionID_shape (address : string) :
  (addressToSessionID address = "" \/
   HasPrefix (addressToSessionID address) "gt-" = true) /\
  (forall rig name, parseAddress address = (rig, name, None) ->
     addressToSessionID address <> "").
Proof.
  split.
  - unfold addressToSessionID. destruct (HasPrefix address "mayor").
    + now right.
    + destruct (SplitN address slash 2) as [|rig [|target [|]]];
        try (now left).
      destruct (is_empty target); [now left | now right].
  - intros rig name H. destruct (HasPrefix address "mayor") eqn:M.
    + unfold addressToSessionID. rewrite M. discriminate.
    + rewrite (addressToSessionID_parsed _ _ _ H M). discriminate.
Qed.

(** X4: the two parsers disagree on an empty rig: [/name] is rejected by
    [parseAddress] and is given the session identifier [gt--name] by the
    router. *)
Theorem empty_rig_disagreement (name : string) :
  name <> "" ->
  parseAddress ("/" ++ name) = ("", "", Some (ErrInvalidFormat ("/" ++ name))) /\
  addressToSessionID ("/" ++ name) = "gt--" ++ name.
Proof.
  intro H. split; [reflexivity|].
  unfold addressToSessionID. simpl.
  apply is_empty_false in H. now rewrite H.
Qed.

Lemma empty_rig_disagreement_witness :
  addressToSessionID "/furiosa" = "gt--furiosa".
Proof. apply (empty_rig_disagreement "furiosa"). discriminate. Defined.

(* ================================================================== *)
(** * More on the mail router *)
(* ================================================================== *)

(** X5: [Send] succeeds exactly when the [bd create] command succeeds; when
    the command fails, [Send] has run nothing but that command (no pin, no
    query of the recipient's session, no banner) and it returns the trimmed
    standard error of the command if that is not empty, and otherwise the
    error of the command wrapped as "sending message". *)
Theorem Send_fails_with_create (env : MailEnv) (r : Router) (msg : Message) :
  let created := run env (workDir r) "bd" (sendArgs env msg) in
  (returned (Send env r msg) = None <-> cmd_err created = None) /\
  (forall err, cmd_err created = Some err ->
     trace (Send env r msg) = [Exec (workDir r) "bd" (sendArgs env msg)] /\
     returned (Send env r msg) =
       Some (if is_empty (TrimSpace env (cmd_stderr created))
             then ErrWrap "sending message" err
             else ErrNew (TrimSpace env (cmd_stderr created)))).
Proof.
  intro created.
  assert (F : forall err, cmd_err created = Some err ->
     trace (Send env r msg) = [Exec (workDir r) "bd" (sendArgs env msg)] /\
     returned (Send env r msg) =
       Some (if is_empty (TrimSpace env (cmd_stderr created))
             then ErrWrap "sending message" err
             else ErrNew (TrimSpace env (cmd_stderr created)))).
  { intros err Hc. unfold Send. fold created. rewrite Hc.
    destruct (is_empty (TrimSpace env (cmd_stderr created))); now split. }
  split; [|exact F]. split.
  - intro H. destruct (cmd_err created) as [err|] eqn:Hc; [|reflexivity].
    destruct (F err eq_refl) as [_ R]. rewrite R in H. discriminate.
  - intro Hc. unfold created in Hc. now rewrite (Send_created env r msg Hc).
Qed.

(** X6: [notifyRecipient] sends a banner exactly when the recipient's
    address is recognised and the backend reports its session as existing;
    the banner goes to that session with the sender's address and the
    subject; and the only error it ever returns is the error of the banner
    itself: an unrecognised address, a failed query and an absent session
    are all reported as success. *)
Theorem notifyRecipient_banner (r : Router) (msg : Message) :
  let sessionID := addressToSessionID (msg_To msg) in
  let live := sessionID <> "" /\ has_session (tmux r) sessionID = inr true in
  (live ->
     filter is_banner (trace (notifyRecipient r msg)) =
       [NotificationBanner sessionID (msg_From msg) (msg_Subject msg)] /\
     returned (notifyRecipient r msg) =
       send_notification_banner (tmux r) sessionID (msg_From msg)
                                (msg_Subject msg)) /\
  (~ live ->
     filter is_banner (trace (notifyRecipient r msg)) = [] /\
     returned (notifyRecipient r msg) = None) /\
  (sessionID = "" -> trace (notifyRecipient r msg) = []).
Proof.
  intros sessionID live. unfold live, notifyRecipient. fold sessionID.
  unfold HasSession, SendNotificationBanner, call, returned.
  destruct (is_empty sessionID) eqn:E.
  - apply is_empty_true in E. repeat split; intros; simpl; tauto.
  - apply is_empty_false in E.
    destruct (has_session (tmux r) sessionID) as [err|[|]];
      repeat split; intros; simpl; try tauto;
        try (exfalso; intuition discriminate).
    now destruct (send_notification_banner (tmux r) sessionID
                    (msg_From msg) (msg_Subject msg)).
Qed.

Lemma notifyRecipient_banner_witness :
  let t := {| has_session := fun s => inr (s =? "gt-gastown-furiosa");
              send_literal_text := fun _ _ => None;
              send_key_enter := fun _ => None;
              send_notification_banner := fun _ _ _ => Some (ErrNew "no server") |} in
  let r := {| workDir := "/town"; tmux := t |} in
  let msg := {| msg_From := "mayor/"; msg_To := "gastown/furiosa";
                msg_Subject := "status"; msg_Body := "report";
                msg_Priority := PriorityNormal; msg_Type := "";
                msg_ThreadID := ""; msg_ReplyTo := ""; msg_Pinned := false |} in
  filter is_banner (trace (notifyRecipient r msg)) =
    [NotificationBanner "gt-gastown-furiosa" "mayor/" "status"] /\
  returned (notifyRecipient r msg) = Some (ErrNew "no server").
Proof.
  intros t r msg.
  apply (notifyRecipient_banner r msg). split; [discriminate | reflexivity].
Defined.

Lemma HasPrefix_refl (s : string) : HasPrefix s s = true.
Proof.
  induction s as [|c s IH]; simpl; [reflexivity|].
  now rewrite Ascii.eqb_refl, IH.
Qed.

Lemma sendLabels_head (env : MailEnv) (msg : Message) :
  exists rest,
    sendLabels env msg = ("from:" ++ addressToIdentity env (msg_From msg)) :: rest.
Proof.
  unfold sendLabels, go_append.
  destruct (negb (is_empty (msg_ThreadID msg)));
  destruct (negb (is_empty (msg_ReplyTo msg)));
  destruct (negb (is_empty (msg_Type msg))
            && negb (msg_Type msg =? TypeNotification env));
  simpl; eauto.
Qed.

(** X7: the [bd create] command of [Send] always has the same fourteen
    arguments: the labels are never empty, so the [--labels] flag is never
    left out; the assignee is the identity of the recipient, the priority is
    the mapped priority in decimal, and [--silent] comes last. *)
Theorem sendArgs_shape (env : MailEnv) (msg : Message) :
  sendArgs env msg =
    ["create"; "--type"; "message";
     "--assignee"; addressToIdentity env (msg_To msg);
     "--title"; msg_Subject msg;
     "-d"; msg_Body msg;
     "--priority"; Sprintf_d (PriorityToBeads env (msg_Priority msg));
     "--labels"; Join (sendLabels env msg) ",";
     "--silent"] /\
  HasPrefix (Join (sendLabels env msg) ",")
            ("from:" ++ addressToIdentity env (msg_From msg)) = true.
Proof.
  destruct (sendLabels_head env msg) as [rest E]. split.
  - unfold sendArgs, go_append. rewrite E. reflexivity.
  - rewrite E. destruct rest as [|l rest]; cbn [Join].
    + apply HasPrefix_refl.
    + apply HasPrefix_append.
Qed.

(* ================================================================== *)
(** * More on the nudge command *)
(* ================================================================== *)

(** Case analysis on every test of a run of [runNudge]. *)
Ltac nudge_cases :=
  unfold runNudge, HasSession, NudgeSession, logNudgeEvent, parsed,
    getSessionManager, call, emit, wrap, discard, ret, fail, bind,
    returned, trace, of_err, deliveries;
  cbv beta iota;
  repeat (match goal with
          | |- context [match ?x with _ => _ end] =>
              lazymatch x with
              | context [match _ with _ => _ end] => fail
              | _ => destruct x eqn:?
              end
          end; cbv beta iota);
  cbn [fst snd app filter is_report is_stdout is_query is_delivery negb] in *.

(** X8: a run of the nudge command that returns an error has printed
    nothing and logged nothing; a run that returns success has printed
    exactly one line. *)
Theorem runNudge_reports (env : CmdEnv) (target message : string) :
  (returned (runNudge env target message) <> None ->
     filter is_report (trace (runNudge env target message)) = []) /\
  (returned (runNudge env target message) = None ->
     exists o, filter is_stdout (trace (runNudge env target message))
               = [Stdout o]).
Proof.
  split; nudge_cases; intro H; try congruence; try reflexivity; eauto.
Qed.

(** X9: for a target written as an address (with a slash), the command
    never asks the backend whether the session exists; and if it delivers
    nothing, it has made no call at all and returns an error. *)
Theorem runNudge_address_unchecked (env : CmdEnv) (target message : string) :
  Contains target slash = true ->
  filter is_query (trace (runNudge env target message)) = [] /\
  (deliveries (trace (runNudge env target message)) = [] ->
     trace (runNudge env target message) = [] /\
     returned (runNudge env target message) <> None).
Proof.
  intro Hc.
  assert (Hd : (target =? "deacon") = false).
  { destruct (target =? "deacon") eqn:E; [|reflexivity].
    apply String.eqb_eq in E. subst. discriminate Hc. }
  unfold runNudge. rewrite Hd, Hc.
  split; [|intro H; revert H]; nudge_cases;
    try reflexivity; try discriminate; intros; split; congruence.
Qed.

Lemma runNudge_address_unchecked_witness :
  let t := {| has_session := fun _ => inr false;
              send_literal_text := fun _ _ => None;
              send_key_enter := fun _ => None;
              send_notification_banner := fun _ _ _ => None |} in
  let env := {| env_tmux := t;
                GetRole := inl (ErrNew "no role");
                FindFromCwdOrError := inr "/town";
                FindFromCwd := ("/town", None);
                GetRig := fun _ name => inr {| rig_Name := name; rig_Polecats := [] |};
                SessionName := fun m polecat =>
                  "gt-" ++ rig_Name (mgr_rig m) ++ "-" ++ polecat;
                crewSessionName := fun rigName crew =>
                  "gt-" ++ rigName ++ "-crew-" ++ crew |} in
  filter is_query (trace (runNudge env "gastown/furiosa" "status?")) = [].
Proof.
  intros t env.
  apply (runNudge_address_unchecked env "gastown/furiosa" "status?").
  reflexivity.
Defined.

Lemma bind_ret_l {A B : Type} (a : A) (k : A -> M B) : bind (ret a) k = k a.
Proof. unfold bind, ret. now destruct (k a). Qed.

Lemma substring_all (s : string) : substring 0 (String.length s) s = s.
Proof. induction s as [|c s IH]; simpl; [reflexivity | now rewrite IH]. Qed.

Lemma TrimPrefix_crew (name : string) : TrimPrefix ("crew/" ++ name) "crew/" = name.
Proof. unfold TrimPrefix. simpl. rewrite Nat.sub_0_r. apply substring_all. Qed.

Lemma Contains_app (a b : string) :
  ~ occurs slash a -> Contains (a ++ String slash b) slash = true.
Proof. intro H. unfold Contains. now rewrite Cut_app. Qed.

(** X10: a nudge of a crew address [rig/crew/name] is delivered to the crew
    session of [rig] and [name], whatever the workspace and the rig
    registry say (they are not consulted), and it fails exactly when a
    submission to the backend fails, with that error wrapped as "nudging
    session". *)
Theorem runNudge_crew (env : CmdEnv) (rig name message : string) :
  rig <> "" -> ~ occurs slash rig ->
  let session := crewSessionName env rig name in
  let text := "[from " ++ senderOf env ++ "] " ++ message in
  let run := runNudge env (rig ++ "/crew/" ++ name) message in
  deliveries (trace run) =
    [SendLiteralText session text; SettleDelay 500; SendKeyEnter session] /\
  returned run =
    match send_literal_text (env_tmux env) session text with
    | Some e => Some (ErrWrap "nudging session" e)
    | None =>
        match send_key_enter (env_tmux env) session with
        | Some e => Some (ErrWrap "nudging session" e)
        | None => None
        end
    end.
Proof.
  intros Hr Hn session text run. unfold run.
  change (rig ++ "/crew/" ++ name) with (rig ++ String slash ("crew/" ++ name)).
  pose proof (Contains_app rig ("crew/" ++ name) Hn) as Hc.
  assert (Hp : parseAddress (rig ++ String slash ("crew/" ++ name))
               = (rig, "crew/" ++ name, None)).
  { apply parseAddress_ok. repeat split; try assumption. discriminate. }
  assert (Hd : (rig ++ String slash ("crew/" ++ name) =? "deacon") = false).
  { apply String.eqb_neq. intro E. rewrite E in Hc. discriminate Hc. }
  unfold runNudge. rewrite Hd, Hc.
  unfold parsed. rewrite Hp, bind_ret_l. cbv beta iota.
  change (HasPrefix ("crew/" ++ name) "crew/") with true.
  cbv iota. rewrite TrimPrefix_crew, bind_ret_l. fold session text.
  split.
  - apply nudge_then_deliveries.
  - unfold NudgeSession, wrap, logNudgeEvent, emit, discard, bind, returned,
      of_err, ret.
    destruct (send_literal_text (env_tmux env) session text);
      [reflexivity|].
    destruct (send_key_enter (env_tmux env) session); [reflexivity|].
    destruct (FindFromCwd env) as [townRoot [err|]]; [reflexivity|].
    destruct (negb (is_empty townRoot)); reflexivity.
Qed.

Lemma runNudge_crew_witness :
  let t := {| has_session := fun _ => inr false;
              send_literal_text := fun _ _ => None;
              send_key_enter := fun _ => None;
              send_notification_banner := fun _ _ _ => None |} in
  let env := {| env_tmux := t;
                GetRole := inr {| role_Role := RoleMayor; role_Rig := "";
                                  role_Polecat := "" |};
                FindFromCwdOrError := inl (ErrNew "no workspace");
                FindFromCwd := ("", Some (ErrNew "no workspace"));
                GetRig := fun _ name => inl (ErrRigNotFound name);
                SessionName := fun _ polecat => "gt-" ++ polecat;
                crewSessionName := fun rigName crew =>
                  "gt-" ++ rigName ++ "-crew-" ++ crew |} in
  deliveries (trace (runNudge env "gastown/crew/max" "hello")) =
    [SendLiteralText "gt-gastown-crew-max" "[from mayor] hello";
     SettleDelay 500;
     SendKeyEnter "gt-gastown-crew-max"] /\
  returned (runNudge env "gastown/crew/max" "hello") = None.
Proof.
  intros t env.
  apply (runNudge_crew env "gastown" "max" "hello");
    [discriminate | simpl; intuition discriminate].
Defined.

(* ================================================================== *)
(** * The session subcommands *)
(* ================================================================== *)

Module SessionCmdProofs.
Import SessionCmd.

(** Case analysis on every test of a run of a session subcommand. *)
Ltac session_unfold :=
  unfold runSessionStart, runSessionStop, runSessionAttach, runSessionCapture,
    runSessionInject, address, manager, tbind, tcall, twrap, print, tret,
    tfail, of_err.

Ltac split_tests :=
  cbv beta iota;
  repeat (match goal with
          | |- context [match ?x with _ => _ end] =>
              lazymatch x with
              | context [match _ with _ => _ end] => fail
              | _ => destruct x eqn:?
              end
          end; cbv beta iota).

Ltac session_cases := session_unfold; split_tests; cbn [fst snd app] in *.

Ltac in_cases :=
  repeat match goal with
         | H : In _ (_ :: _) |- _ => destruct H as [H | H]
         | H : In _ [] |- _ => destruct H
         | H : In _ (_ ++ _) |- _ => apply in_app_or in H as [H | H]
         end.

Lemma parseAddress_rejected (addr : string) :
  snd (parseAddress addr) <> None ->
  parseAddress addr = ("", "", Some (ErrInvalidFormat addr)).
Proof.
  intro H. destruct (parseAddress_total addr) as [(rig & name & E & _) | E];
    [|exact E].
  rewrite E in H. now destruct H.
Qed.

(** X11: every session subcommand that takes an address (start, stop,
    attach, capture, inject) rejects an address that [parseAddress] rejects
    with the invalid-format error, before it looks at the workspace, reads
    a file, prints anything or calls the session manager. *)
Theorem session_commands_reject_address (env : CmdEnv) (se : SessionEnv)
  (fl : Flags) (addr : string) (count : option string) (cmd : T unit) :
  snd (parseAddress addr) <> None ->
  In cmd [runSessionStart env se fl addr; runSessionStop env se fl addr;
          runSessionAttach env se addr;
          runSessionCapture env se fl addr count;
          runSessionInject env se fl addr] ->
  cmd = ([], inl (ErrInvalidFormat addr)).
Proof.
  intros H Hin. apply parseAddress_rejected in H.
  in_cases; subst cmd; session_unfold; rewrite H; reflexivity.
Qed.

Lemma session_commands_reject_address_witness :
  let t := {| has_session := fun _ => inr false;
              send_literal_text := fun _ _ => None;
              send_key_enter := fun _ => None;
              send_notification_banner := fun _ _ _ => None |} in
  let env := {| env_tmux := t;
                GetRole := inl (ErrNew "no role");
                FindFromCwdOrError := inr "/town";
                FindFromCwd := ("/town", None);
                GetRig := fun _ name => inr {| rig_Name := name; rig_Polecats := ["Toast"] |};
                SessionName := fun _ polecat => "gt-" ++ polecat;
                crewSessionName := fun rigName crew => "gt-" ++ rigName ++ "-crew-" ++ crew |} in
  let se := {| mgr_Start := fun _ _ _ => None;
               mgr_Stop := fun _ _ _ => None;
               mgr_Attach := fun _ _ => None;
               mgr_Capture := fun _ _ _ => inr "";
               mgr_Inject := fun _ _ _ => None;
               mgr_List := fun _ => inr [];
               DiscoverRigs := fun _ => inr [];
               ReadFile := fun _ => inr "";
               Encode := fun _ => None |} in
  let fl := {| sessionIssue := ""; sessionForce := false; sessionLines := 100;
               sessionMessage := "Check your mail"; sessionFile := "";
               sessionRigFilter := ""; sessionListJSON := false |} in
  runSessionInject env se fl "wyvern/" = ([], inl (ErrInvalidFormat "wyvern/")).
Proof.
  intros t env se fl.
  apply (session_commands_reject_address env se fl "wyvern/" None).
  - discriminate.
  - simpl. tauto.
Defined.

(** X12: a session subcommand calls the session manager only after the
    address was accepted and the session manager of its rig was obtained:
    outside a workspace, or for an unknown rig, no manager call is made. *)
Theorem session_commands_need_manager (env : CmdEnv) (se : SessionEnv)
  (fl : Flags) (addr : string) (count : option string) (cmd : T unit)
  (e : event) :
  In cmd [runSessionStart env se fl addr; runSessionStop env se fl addr;
          runSessionAttach env se addr;
          runSessionCapture env se fl addr count;
          runSessionInject env se fl addr] ->
  In e (fst cmd) -> is_manager_call e = true ->
  exists rigName polecatName mgr,
    parseAddress addr = (rigName, polecatName, None) /\
    snd (getSessionManager env rigName) = inr mgr.
Proof.
  intros Hin He Hm.
  in_cases; subst cmd; revert He; session_cases; intro He; in_cases;
    subst; try discriminate; eauto.
Qed.

Lemma session_commands_need_manager_witness :
  let t := {| has_session := fun _ => inr false;
              send_literal_text := fun _ _ => None;
              send_key_enter := fun _ => None;
              send_notification_banner := fun _ _ _ => None |} in
  let wyvern := {| rig_Name := "wyvern"; rig_Polecats := ["Toast"] |} in
  let env := {| env_tmux := t;
                GetRole := inl (ErrNew "no role");
                FindFromCwdOrError := inr "/town";
                FindFromCwd := ("/town", None);
                GetRig := fun _ _ => inr wyvern;
                SessionName := fun _ polecat => "gt-" ++ polecat;
                crewSessionName := fun rigName crew => "gt-" ++ rigName ++ "-crew-" ++ crew |} in
  let se := {| mgr_Start := fun _ _ _ => None;
               mgr_Stop := fun _ _ _ => None;
               mgr_Attach := fun _ _ => None;
               mgr_Capture := fun _ _ _ => inr "";
               mgr_Inject := fun _ _ _ => None;
               mgr_List := fun _ => inr [];
               DiscoverRigs := fun _ => inr [];
               ReadFile := fun _ => inr "";
               Encode := fun _ => None |} in
  let fl := {| sessionIssue := ""; sessionForce := true; sessionLines := 100;
               sessionMessage := ""; sessionFile := "";
               sessionRigFilter := ""; sessionListJSON := false |} in
  exists rigName polecatName mgr,
    parseAddress "wyvern/Toast" = (rigName, polecatName, None) /\
    snd (getSessionManager env rigName) = inr mgr.
Proof.
  intros t wyvern env se fl.
  apply (session_commands_need_manager env se fl "wyvern/Toast" None
           (runSessionStop env se fl "wyvern/Toast")
           (Stop wyvern "Toast" true)).
  - simpl. tauto.
  - simpl. tauto.
  - reflexivity.
Defined.

Lemma existsb_eqb (p : string) (l : list string) :
  existsb (fun q => q =? p) l = true <-> In p l.
Proof.
  rewrite existsb_exists. split.
  - intros [q [Hin E]]. apply String.eqb_eq in E. now subst.
  - intro H. exists p. split; [exact H | apply String.eqb_refl].
Qed.

(** X13: the start command starts a session only for a polecat that is in
    the roster of the rig, and with the issue of the [--issue] flag; for a
    polecat that is not in the roster it fails with the polecat-not-found
    error and makes no call and prints nothing. *)
Theorem runSessionStart_roster (env : CmdEnv) (se : SessionEnv) (fl : Flags)
  (addr : string) :
  (forall r polecat opts,
     In (Start r polecat opts) (fst (runSessionStart env se fl addr)) ->
     In polecat (rig_Polecats r) /\ opt_Issue opts = sessionIssue fl) /\
  (forall rigName polecatName mgr,
     parseAddress addr = (rigName, polecatName, None) ->
     snd (getSessionManager env rigName) = inr mgr ->
     ~ In polecatName (rig_Polecats (mgr_rig mgr)) ->
     runSessionStart env se fl addr =
       ([], inl (ErrNew ("polecat '" ++ polecatName ++ "' not found in rig '"
                         ++ rigName ++ "'")))).
Proof.
  split.
  - intros r polecat opts. session_cases; intro H; in_cases;
      try discriminate; injection H as <- <- <-;
      (split; [|reflexivity]);
      match goal with
      | E : negb (existsb _ _) = false |- _ =>
          apply negb_false_iff, existsb_eqb in E; exact E
      end.
  - intros rigName polecatName mgr Hp Hm Hn.
    unfold runSessionStart, address, manager. rewrite Hp.
    unfold tbind, tret. rewrite Hm. cbv beta iota.
    destruct (existsb (fun p => p =? polecatName) (rig_Polecats (mgr_rig mgr)))
      eqn:E; [|reflexivity].
    apply existsb_eqb in E. contradiction.
Qed.


(** X15: the inject command never injects an empty message: the message is
    the content of the file of the [--file] flag when that flag is set, and
    the [--message] flag otherwise; when it is empty the command fails with
    the no-message error and the session manager is not called. *)
Theorem runSessionInject_message (env : CmdEnv) (se : SessionEnv) (fl : Flags)
  (addr : string) :
  (forall r polecat message,
     In (Inject r polecat message) (fst (runSessionInject env se fl addr)) ->
     message <> "" /\
     if is_empty (sessionFile fl) then message = sessionMessage fl
     else ReadFile se (sessionFile fl) = inr message) /\
  (forall rigName polecatName,
     parseAddress addr = (rigName, polecatName, None) ->
     sessionFile fl = "" -> sessionMessage fl = "" ->
     runSessionInject env se fl addr = ([], inl ErrNoMessage)).
Proof.
  split.
  - intros r polecat message. session_cases; intro H; in_cases;
      try discriminate; injection H as <- <- <-;
      (split; [now apply is_empty_false | reflexivity]).
  - intros rigName polecatName Hp Hf Hm.
    unfold runSessionInject, address. rewrite Hp, Hf, Hm. reflexivity.
Qed.

(** The sessions that the loop over the rigs collects. *)
Lemma collect_items (se : SessionEnv) (rigs : list Rig) (it : SessionListItem) :
  In it (snd (collect se rigs)) <->
  exists r infos info,
    In r rigs /\ mgr_List se r = inr infos /\ In info infos /\
    it = {| item_Rig := rig_Name r;
            item_Polecat := info_Polecat info;
            item_SessionID := info_SessionID info;
            item_Running := info_Running info |}.
Proof.
  induction rigs as [|r rigs IH]; simpl.
  - split; [intros [] | intros (r & infos & info & [] & _)].
  - destruct (collect se rigs) as [t items]. simpl in IH.
    destruct (mgr_List se r) as [err|infos] eqn:L; simpl.
    + rewrite IH. split.
      * intros (r' & infos & info & Hin & H). exists r', infos, info. tauto.
      * intros (r' & infos & info & [<- | Hin] & HL & H).
        -- congruence.
        -- exists r', infos, info. tauto.
    + split.
      * intro H. apply in_app_or in H as [H | H].
        -- apply in_map_iff in H as [info [<- Hin]].
           exists r, infos, info. tauto.
        -- apply IH in H as (r' & infos' & info & Hin & H).
           exists r', infos', info. tauto.
      * intros (r' & infos' & info & [<- | Hin] & HL & Hi & ->).
        -- apply in_or_app. left. rewrite L in HL. injection HL as <-.
           apply in_map_iff. now exists info.
        -- apply in_or_app. right. apply IH. exists r', infos', info. tauto.
Qed.

Lemma collect_calls (se : SessionEnv) (rigs : list Rig) :
  fst (collect se rigs) = map List rigs.
Proof.
  induction rigs as [|r rigs IH]; simpl; [reflexivity|].
  destruct (collect se rigs) as [t items]. simpl in IH.
  destruct (mgr_List se r); simpl; now rewrite IH.
Qed.

Lemma runSessionList_run (env : CmdEnv) (se : SessionEnv) (fl : Flags)
  (townRoot : string) (rigs : list Rig) :
  FindFromCwdOrError env = inr townRoot ->
  DiscoverRigs se townRoot = inr rigs ->
  let all := snd (collect se (listed_rigs fl rigs)) in
  runSessionList env se fl =
    ((Discover townRoot :: map List (listed_rigs fl rigs)
      ++ fst (list_output se fl all))%list,
     snd (list_output se fl all)).
Proof.
  intros Hw Hd all. unfold runSessionList. rewrite Hw.
  unfold twrap, tcall at 1. rewrite Hd. unfold tbind at 1.
  fold (listed_rigs fl rigs).
  pose proof (collect_calls se (listed_rigs fl rigs)) as Hc. unfold all.
  destruct (collect se (listed_rigs fl rigs)) as [t items]. simpl in Hc.
  subst t. cbn [snd]. fold (list_output se fl items).
  unfold tbind. destruct (list_output se fl items) as [t' r]. reflexivity.
Qed.

(** X16: every session that the list command writes comes from a rig that
    was discovered and whose listing succeeded, and carries the name of that
    rig; with the [--rig] filter set, every one is of the rig of the
    filter.  A rig whose listing fails is skipped: with the rigs
    discovered and the table output, the command succeeds whatever the
    listings return. *)
Theorem runSessionList_filter (env : CmdEnv) (se : SessionEnv) (fl : Flags)
  (townRoot : string) (rigs : list Rig) :
  FindFromCwdOrError env = inr townRoot ->
  DiscoverRigs se townRoot = inr rigs ->
  (forall items it,
     listed items (runSessionList env se fl) -> In it items ->
     (sessionRigFilter fl <> "" -> item_Rig it = sessionRigFilter fl) /\
     exists r infos info,
       In r rigs /\ mgr_List se r = inr infos /\ In info infos /\
       item_Rig it = rig_Name r /\ item_Polecat it = info_Polecat info /\
       item_SessionID it = info_SessionID info /\
       item_Running it = info_Running info) /\
  (sessionListJSON fl = false -> snd (runSessionList env se fl) = inr tt).
Proof.
  intros Hw Hd. rewrite (runSessionList_run env se fl townRoot rigs Hw Hd).
  set (rigs' := listed_rigs fl rigs).
  set (all := snd (collect se rigs')).
  assert (Hsub : forall r, In r rigs' ->
            In r rigs /\ (sessionRigFilter fl <> "" ->
                          rig_Name r = sessionRigFilter fl)).
  { intros r Hr. unfold rigs', listed_rigs in Hr.
    destruct (is_empty (sessionRigFilter fl)) eqn:E; simpl in Hr.
    - apply is_empty_true in E. split; [exact Hr | congruence].
    - apply filter_In in Hr as [Hr Hn]. apply String.eqb_eq in Hn. tauto. }
  split.
  - intros items it Hl Hin.
    assert (items = all) as ->.
    { unfold listed in Hl. cbn [fst] in Hl.
      assert (Hno : forall e, In e (Discover townRoot :: map List rigs') ->
                e <> EncodeJSON items /\ e <> Print (PSessions items)).
      { intros e [<- | He]; [split; discriminate|].
        apply in_map_iff in He as [r [<- _]]. split; discriminate. }
      assert (Hout : forall e, In e (fst (list_output se fl all)) ->
                e = EncodeJSON items \/ e = Print (PSessions items) ->
                items = all).
      { unfold list_output, tcall, print. intros e He Hor.
        destruct (sessionListJSON fl);
          [|destruct (Nat.eqb (List.length all) 0)];
          destruct He as [<- | []]; destruct Hor as [E | E];
          try discriminate; now injection E. }
      destruct Hl as [Hl | Hl];
        change (Discover townRoot :: map List rigs' ++ fst (list_output se fl all))%list
          with ((Discover townRoot :: map List rigs') ++ fst (list_output se fl all))%list
          in Hl;
        apply in_app_or in Hl as [Hl | Hl];
        try (apply Hno in Hl; tauto);
        apply (Hout _ Hl); tauto. }
    apply collect_items in Hin as (r & infos & info & Hr & HL & Hi & ->).
    apply Hsub in Hr as [Hr Hf]. split; [exact Hf|].
    exists r, infos, info. simpl. tauto.
  - intro Hj. cbn [snd]. unfold list_output. rewrite Hj. unfold print.
    destruct (Nat.eqb (List.length all) 0); reflexivity.
Qed.

Lemma runSessionList_filter_witness :
  let t := {| has_session := fun _ => inr false;
              send_literal_text := fun _ _ => None;
              send_key_enter := fun _ => None;
              send_notification_banner := fun _ _ _ => None |} in
  let wyvern := {| rig_Name := "wyvern"; rig_Polecats := ["Toast"] |} in
  let gastown := {| rig_Name := "gastown"; rig_Polecats := ["furiosa"] |} in
  let env := {| env_tmux := t;
                GetRole := inl (ErrNew "no role");
                FindFromCwdOrError := inr "/town";
                FindFromCwd := ("/town", None);
                GetRig := fun _ _ => inr wyvern;
                SessionName := fun _ polecat => "gt-" ++ polecat;
                crewSessionName := fun rigName crew => "gt-" ++ rigName ++ "-crew-" ++ crew |} in
  let se := {| mgr_Start := fun _ _ _ => None;
               mgr_Stop := fun _ _ _ => None;
               mgr_Attach := fun _ _ => None;
               mgr_Capture := fun _ _ _ => inr "";
               mgr_Inject := fun _ _ _ => None;
               mgr_List := fun r =>
                 if rig_Name r =? "wyvern"
                 then inl (ErrNew "no server running")
                 else inr [{| info_Polecat := "furiosa";
                              info_SessionID := "gt-gastown-furiosa";
                              info_Running := true |}];
               DiscoverRigs := fun _ => inr [wyvern; gastown];
               ReadFile := fun _ => inr "";
               Encode := fun _ => None |} in
  let fl := {| sessionIssue := ""; sessionForce := false; sessionLines := 100;
               sessionMessage := ""; sessionFile := "";
               sessionRigFilter := ""; sessionListJSON := false |} in
  snd (runSessionList env se fl) = inr tt.
Proof.
  intros t wyvern gastown env se fl.
  apply (runSessionList_filter env se fl "/town" [wyvern; gastown]);
    reflexivity.
Defined.

(** Two rigs, the listing of the first one failing: the command lists the
    sessions of the second. *)
Example runSessionList_skips :
  let wyvern := {| rig_Name := "wyvern"; rig_Polecats := ["Toast"] |} in
  let gastown := {| rig_Name := "gastown"; rig_Polecats := ["furiosa"] |} in
  let se := {| mgr_Start := fun _ _ _ => None;
               mgr_Stop := fun _ _ _ => None;
               mgr_Attach := fun _ _ => None;
               mgr_Capture := fun _ _ _ => inr "";
               mgr_Inject := fun _ _ _ => None;
               mgr_List := fun r =>
                 if rig_Name r =? "wyvern"
                 then inl (ErrNew "no server running")
                 else inr [{| info_Polecat := "furiosa";
                              info_SessionID := "gt-gastown-furiosa";
                              info_Running := true |}];
               DiscoverRigs := fun _ => inr [wyvern; gastown];
               ReadFile := fun _ => inr "";
               Encode := fun _ => None |} in
  collect se [wyvern; gastown] =
    ([List wyvern; List gastown],
     [{| item_Rig := "gastown"; item_Polecat := "furiosa";
         item_SessionID := "gt-gastown-furiosa"; item_Running := true |}]).
Proof. reflexivity. Qed.

Ltac pick_success :=
  match goal with
  | |- exists e, In e ?l /\ _ =>
      let rec go l :=
        match l with
        | ?x :: ?r =>
            first [ exists x; split; [simpl; tauto | reflexivity] | go r ]
        end in
      go l
  end.

(** X17: the start, stop, capture and inject commands print their line of
    success (for capture, the captured output) exactly when they return no
    error: nothing is reported as done after a failure of the session
    manager. *)
Theorem session_commands_success_line (env : CmdEnv) (se : SessionEnv)
  (fl : Flags) (addr : string) (count : option string) (cmd : T unit) :
  In cmd [runSessionStart env se fl addr; runSessionStop env se fl addr;
          runSessionCapture env se fl addr count;
          runSessionInject env se fl addr] ->
  (snd cmd = inr tt <->
   exists e, In e (fst cmd) /\ is_success_line e = true).
Proof.
  intro Hin.
  in_cases; subst cmd; session_cases; split; intro Hs;
    try discriminate Hs; try reflexivity;
    try (match goal with
         | H : exists _, _ |- _ => destruct H as [ev [Hev Hl]]
         end; in_cases; subst; discriminate);
    pick_success.
Qed.

Lemma session_commands_success_line_witness :
  let t := {| has_session := fun _ => inr false;
              send_literal_text := fun _ _ => None;
              send_key_enter := fun _ => None;
              send_notification_banner := fun _ _ _ => None |} in
  let wyvern := {| rig_Name := "wyvern"; rig_Polecats := ["Toast"] |} in
  let env := {| env_tmux := t;
                GetRole := inl (ErrNew "no role");
                FindFromCwdOrError := inr "/town";
                FindFromCwd := ("/town", None);
                GetRig := fun _ _ => inr wyvern;
                SessionName := fun _ polecat => "gt-" ++ polecat;
                crewSessionName := fun rigName crew => "gt-" ++ rigName ++ "-crew-" ++ crew |} in
  let se := {| mgr_Start := fun _ _ _ => Some (ErrNew "session already running");
               mgr_Stop := fun _ _ _ => None;
               mgr_Attach := fun _ _ => None;
               mgr_Capture := fun _ _ _ => inr "";
               mgr_Inject := fun _ _ _ => None;
               mgr_List := fun _ => inr [];
               DiscoverRigs := fun _ => inr [];
               ReadFile := fun _ => inr "";
               Encode := fun _ => None |} in
  let fl := {| sessionIssue := "gt-123"; sessionForce := false;
               sessionLines := 100; sessionMessage := ""; sessionFile := "";
               sessionRigFilter := ""; sessionListJSON := false |} in
  runSessionStart env se fl "wyvern/Toast" =
    ([Print (PStarting "wyvern" "Toast");
      Start wyvern "Toast" {| opt_Issue := "gt-123" |}],
     inl (ErrWrap "starting session" (ErrNew "session already running"))) /\
  ~ (exists e, In e (fst (runSessionStart env se fl "wyvern/Toast"))
               /\ is_success_line e = true).
Proof.
  intros t wyvern env se fl. split; [reflexivity|].
  intro H.
  apply (session_commands_success_line env se fl "wyvern/Toast" None
           (runSessionStart env se fl "wyvern/Toast")) in H.
  - discriminate H.
  - simpl. tauto.
Defined.

(** The capture command with a count given as an argument. *)
Example runSessionCapture_50 :
  let t := {| has_session := fun _ => inr false;
              send_literal_text := fun _ _ => None;
              send_key_enter := fun _ => None;
              send_notification_banner := fun _ _ _ => None |} in
  let wyvern := {| rig_Name := "wyvern"; rig_Polecats := ["Toast"] |} in
  let env := {| env_tmux := t;
                GetRole := inl (ErrNew "no role");
                FindFromCwdOrError := inr "/town";
                FindFromCwd := ("/town", None);
                GetRig := fun _ _ => inr wyvern;
                SessionName := fun _ polecat => "gt-" ++ polecat;
                crewSessionName := fun rigName crew => "gt-" ++ rigName ++ "-crew-" ++ crew |} in
  let se := {| mgr_Start := fun _ _ _ => None;
               mgr_Stop := fun _ _ _ => None;
               mgr_Attach := fun _ _ => None;
               mgr_Capture := fun _ _ _ => inr "$ make test";
               mgr_Inject := fun _ _ _ => None;
               mgr_List := fun _ => inr [];
               DiscoverRigs := fun _ => inr [];
               ReadFile := fun _ => inr "";
               Encode := fun _ => None |} in
  let fl := {| sessionIssue := ""; sessionForce := false;
               sessionLines := 100; sessionMessage := ""; sessionFile := "";
               sessionRigFilter := ""; sessionListJSON := false |} in
  runSessionCapture env se fl "wyvern/Toast" (Some "50") =
    ([Capture wyvern "Toast" 50; Print (PCaptured "$ make test")], inr tt) /\
  runSessionCapture env se fl "wyvern/Toast" (Some "0") =
    ([], inl (ErrNew "line count must be positive, got 0")) /\
  runSessionCapture env se fl "wyvern/Toast" (Some "-3") =
    ([], inl (ErrNew "line count must be positive, got -3")) /\
  runSessionCapture env se fl "wyvern/Toast" (Some "5O") =
    ([], inl (ErrNew "invalid line count '5O': must be a number")) /\
  runSessionCapture env se fl "wyvern/Toast" None =
    ([Capture wyvern "Toast" 100; Print (PCaptured "$ make test")], inr tt).
Proof. repeat split. Qed.

End SessionCmdProofs.

(* ================================================================== *)
(** * getRig, and the sender tag *)
(* ================================================================== *)

(** X18: [getRig] returns a town root and a rig exactly when the workspace
    is found, the rigs configuration loads or its file does not exist (the
    empty configuration is then used), and the rig is found in it.  A load
    error other than a missing file is reported, wrapped with the path of
    the file, and never replaced by the empty configuration. *)
Theorem getRig_result {Config : Type} (env : RigEnv Config) (rigName : string) :
  (forall townRoot r,
     getRig env rigName = inr (townRoot, r) <->
     rig_FindFromCwdOrError env = inr townRoot /\
     exists cfg,
       (LoadRigsConfig env (MayorRigsPath env townRoot) = inr cfg \/
        exists err,
          LoadRigsConfig env (MayorRigsPath env townRoot) = inl err /\
          is_ErrNotFound env err = true /\ cfg = emptyConfig env) /\
       rigMgr_GetRig env townRoot cfg rigName = inr r) /\
  (forall townRoot err,
     rig_FindFromCwdOrError env = inr townRoot ->
     LoadRigsConfig env (MayorRigsPath env townRoot) = inl err ->
     is_ErrNotFound env err = false ->
     getRig env rigName =
       inl (ErrWrap ("loading rigs config from " ++ MayorRigsPath env townRoot)
                    err)).
Proof.
  split.
  - intros townRoot r. unfold getRig. split.
    + destruct (rig_FindFromCwdOrError env) as [e|root]; [discriminate|].
      destruct (LoadRigsConfig env (MayorRigsPath env root)) as [e|cfg] eqn:L.
      * destruct (is_ErrNotFound env e) eqn:N; simpl; [|discriminate].
        destruct (rigMgr_GetRig env root (emptyConfig env) rigName)
          as [e'|r'] eqn:G; [discriminate|].
        intro H. injection H as <- <-. split; [reflexivity|].
        exists (emptyConfig env). split; [|exact G]. right. now exists e.
      * destruct (rigMgr_GetRig env root cfg rigName) as [e'|r'] eqn:G;
          [discriminate|].
        intro H. injection H as <- <-. split; [reflexivity|].
        exists cfg. split; [now left | exact G].
    + intros [-> [cfg [[L | [err [L [N ->]]]] G]]]; rewrite L.
      * now rewrite G.
      * rewrite N. simpl. now rewrite G.
  - intros townRoot err Hw L N. unfold getRig. now rewrite Hw, L, N.
Qed.

(** X19: the sender tag of a process that runs as crew, polecat, witness or
    refinery of a rig is an address that [parseAddress] accepts, with that
    rig as its rig component (for a rig name that is not empty and has no
    slash and, for crew and polecat, whatever non-empty name): the tag a
    nudge carries can be given back to the nudge command as a target. *)
Theorem sender_is_address (env : CmdEnv) (info : RoleInfo) :
  GetRole env = inr info ->
  role_Rig info <> "" -> ~ occurs slash (role_Rig info) ->
  match role_Role info with
  | RoleCrew =>
      parseAddress (senderOf env)
      = (role_Rig info, "crew/" ++ role_Polecat info, None)
  | RolePolecat =>
      role_Polecat info <> "" ->
      parseAddress (senderOf env) = (role_Rig info, role_Polecat info, None)
  | RoleWitness =>
      parseAddress (senderOf env) = (role_Rig info, "witness", None)
  | RoleRefinery =>
      parseAddress (senderOf env) = (role_Rig info, "refinery", None)
  | _ => True
  end.
Proof.
  intros Hg Hr Hn. unfold senderOf. rewrite Hg.
  destruct (role_Role info); try exact I; try intro Hp;
    apply parseAddress_ok; repeat split; try assumption; try discriminate.
Qed.

Lemma sender_is_address_witness :
  let t := {| has_session := fun _ => inr false;
              send_literal_text := fun _ _ => None;
              send_key_enter := fun _ => None;
              send_notification_banner := fun _ _ _ => None |} in
  let info := {| role_Role := RoleCrew; role_Rig := "gastown";
                 role_Polecat := "max" |} in
  let env := {| env_tmux := t;
                GetRole := inr info;
                FindFromCwdOrError := inr "/town";
                FindFromCwd := ("/town", None);
                GetRig := fun _ name => inl (ErrRigNotFound name);
                SessionName := fun _ polecat => "gt-" ++ polecat;
                crewSessionName := fun rigName crew => "gt-" ++ rigName ++ "-crew-" ++ crew |} in
  parseAddress (senderOf env) = ("gastown", "crew/max", None).
Proof.
  intros t info env.
  apply (sender_is_address env info);
    [reflexivity | discriminate | simpl; intuition discriminate].
Defined.

(* ================================================================== *)
(** * The patrol pattern and burning *)
(* ================================================================== *)

Module PatrolProofs.
Import WispLedger WispLedgerProofs.

Lemma map_untouched (i : RecordID) (f : Molecule -> Molecule)
  (l : list Molecule) :
  (forall x, In x l -> has_id i x = false) ->
  map (fun x => if has_id i x then f x else x) l = l.
Proof.
  induction l as [|x l IH]; simpl; intro H; [reflexivity|].
  rewrite (H x) by now left. f_equal. apply IH. intros y Hy. apply H. now right.
Qed.

Lemma filter_untouched (i : RecordID) (l : list Molecule) :
  (forall x, In x l -> has_id i x = false) ->
  filter (fun x => negb (has_id i x)) l = l.
Proof.
  induction l as [|x l IH]; simpl; intro H; [reflexivity|].
  rewrite (H x) by now left. simpl. f_equal. apply IH.
  intros y Hy. apply H. now right.
Qed.

Lemma step_last_wisp (i : RecordID) (E : list Molecule)
  (D : list DurableRecord) (n : RecordID) (sid : string) (now : nat)
  (L L' : Ledger) :
  (forall x, In x E -> has_id i x = false) ->
  last_wisp i E D n L -> step i sid now L = inr L' -> last_wisp i E D n L'.
Proof.
  intros HE (m & Hid & He & Hd & Hn). unfold step, find_wisp. rewrite He.
  rewrite (find_app_fresh _ E m HE) by now apply has_id_true.
  destruct (complete_step sid (mol_steps m)) as [steps|]; [|discriminate].
  intro H. injection H as <-.
  exists (with_steps m steps now). simpl. repeat split; try assumption.
  rewrite map_app, (map_untouched i _ E HE). simpl.
  apply has_id_true in Hid. now rewrite Hid.
Qed.

Lemma complete_all_last_wisp (i : RecordID) (E : list Molecule)
  (D : list DurableRecord) (n : RecordID) (now : nat) (steps : list Step)
  (L : Ledger) :
  (forall x, In x E -> has_id i x = false) ->
  last_wisp i E D n L -> last_wisp i E D n (complete_all i now steps L).
Proof.
  intro HE. revert L. induction steps as [|s steps IH]; intros L H; [exact H|].
  simpl. apply IH. destruct (step i (step_id s) now L) as [e|L'] eqn:S;
    [exact H|]. now apply (step_last_wisp i E D n (step_id s) now L L').
Qed.

(** X20: a patrol cycle on a ledger that the lifecycle operations produced
    always succeeds and leaves the ephemeral store exactly as it found it:
    wisps do not accumulate.  The durable store gains one record, the
    digest the cycle returns, which carries the summary and refers to the
    wisp of the cycle. *)
Theorem patrolCycle_no_accumulation (P : Protos) (L : Ledger)
  (protoName : string) (pid : option nat) (bonded stepped squashed : nat)
  (summary : string) :
  reachable P L ->
  exists dg L',
    patrolCycle P protoName pid bonded stepped squashed summary L
      = inr (dig_id dg, L') /\
    ephemeral L' = ephemeral L /\
    durable L' = (durable L ++ [DDigest dg])%list /\
    dig_squashedFrom dg = next_id L /\
    dig_description dg = summary.
Proof.
  intro R. apply well_formed_reachable in R as (He & _).
  assert (HE : forall x, In x (ephemeral L) -> has_id (next_id L) x = false).
  { intros x Hx. apply has_id_false. apply He in Hx. lia. }
  unfold patrolCycle, bond. cbv iota beta. cbn [mol_id mol_steps].
  match goal with
  | |- context [complete_all ?i ?t ?s ?L1] =>
      assert (H : last_wisp i (ephemeral L) (durable L) (S (next_id L))
                    (complete_all i t s L1))
  end.
  { apply complete_all_last_wisp; [exact HE|].
    eexists. cbn [ephemeral durable next_id].
    split; [|split; [reflexivity | split; reflexivity]]. reflexivity. }
  destruct H as (m & Hid & Hm & Hd & Hn).
  unfold squash, find_wisp. rewrite Hm.
  rewrite (find_app_fresh _ (ephemeral L) m HE) by now apply has_id_true.
  eexists. eexists. split; [reflexivity|]. cbn [ephemeral durable].
  rewrite filter_app, (filter_untouched _ _ HE), Hd. simpl.
  apply has_id_true in Hid. rewrite Hid. simpl. rewrite app_nil_r.
  apply has_id_true in Hid. repeat split. exact Hid.
Qed.

Lemma patrolCycle_no_accumulation_witness :
  let P := {| protoSteps := fun _ => ["inbox-check"; "health-scan"];
              parentOf := fun m => mol_protoName m;
              titleOf := fun m _ => mol_protoName m |} in
  let L := run P [Bond "mol-polecat-work" false None 1;
                  Bond "mol-witness-patrol" true None 2] empty in
  exists dg L',
    patrolCycle P "mol-deacon-patrol" (Some 4242) 10 11 12 "all healthy" L
      = inr (dig_id dg, L') /\
    ephemeral L' = ephemeral L /\
    durable L' = (durable L ++ [DDigest dg])%list /\
    dig_squashedFrom dg = next_id L /\
    dig_description dg = "all healthy".
Proof.
  intros P L.
  apply (patrolCycle_no_accumulation P L "mol-deacon-patrol" (Some 4242)
           10 11 12 "all healthy").
  exists [Bond "mol-polecat-work" false None 1;
          Bond "mol-witness-patrol" true None 2].
  reflexivity.
Defined.

Lemma digests_abandon (i : RecordID) (rs : list DurableRecord) :
  flat_map (fun r => match r with DDigest d => [d] | DMolecule _ _ => [] end)
           (map (abandon i) rs) =
  flat_map (fun r => match r with DDigest d => [d] | DMolecule _ _ => [] end) rs.
Proof.
  induction rs as [|[x a|d] rs IH]; simpl; [reflexivity| |now rewrite IH].
  destruct (has_id i x); simpl; exact IH.
Qed.

(** X21: burning never writes or removes a digest.  Burning a molecule
    that is in the ephemeral store removes every wisp record with its id
    and leaves the durable store as it is; burning any other molecule
    leaves the ephemeral store as it is and keeps every durable record,
    marking the molecule abandoned where it is found. *)
Theorem burn_discards (i : RecordID) (L : Ledger) :
  digests (burn i L) = digests L /\
  next_id (burn i L) = next_id L /\
  (in_ephemeral i L ->
     wisp_count i (burn i L) = 0 /\
     durable (burn i L) = durable L /\
     (forall m, In m (ephemeral (burn i L)) <->
                In m (ephemeral L) /\ mol_id m <> i)) /\
  (~ in_ephemeral i L ->
     ephemeral (burn i L) = ephemeral L /\
     List.length (durable (burn i L)) = List.length (durable L) /\
     (forall m a, In (DMolecule m a) (durable L) ->
        In (DMolecule m (if has_id i m then true else a)) (durable (burn i L)))).
Proof.
  unfold burn, digests.
  destruct (find_wisp i L) as [m|] eqn:F; cbn [ephemeral durable next_id].
  - split; [reflexivity|]. split; [reflexivity|]. split.
    + intros _. unfold wisp_count. cbn [ephemeral]. split; [|split].
      * rewrite filter_none; [reflexivity|].
        intros x Hx. apply filter_In in Hx as [_ Hx].
        now apply negb_true_iff in Hx.
      * reflexivity.
      * intro x. rewrite filter_In, negb_true_iff, has_id_false. tauto.
    + intro Hn. exfalso. apply Hn. apply find_wisp_Some in F as [Hin Hid].
      now exists m.
  - split; [apply digests_abandon|]. split; [reflexivity|]. split.
    + intro Hin. exfalso. now apply (find_wisp_None i L F).
    + intros _. split; [reflexivity|]. split; [apply length_map|].
      intros x a Hin. apply in_map_iff. exists (DMolecule x a).
      split; [|exact Hin]. simpl. now destruct (has_id i x).
Qed.

End PatrolProofs.

(* ================================================================== *)
(** * Nudging a session by name *)
(* ================================================================== *)

(** X22: for the target [deacon] (session [gt-deacon]) and for a raw
    session name (no slash), the command first asks the backend for the
    session.  When the session exists, the sender-tagged message is
    delivered to that session, and the command fails exactly when a
    submission fails, with that error wrapped as "nudging deacon" or
    "nudging session".  When the query itself fails, nothing is sent and
    the error is returned wrapped as "checking deacon session" or "checking
    session". *)
Theorem runNudge_named_session (env : CmdEnv) (target message : string) :
  Contains target slash = false ->
  let deacon := target =? "deacon" in
  let session := if deacon then DeaconSessionName else target in
  let text := "[from " ++ senderOf env ++ "] " ++ message in
  let nudging := if deacon then "nudging deacon" else "nudging session" in
  let checking :=
    if deacon then "checking deacon session" else "checking session" in
  hd_error (trace (runNudge env target message)) = Some (HasSessionQuery session) /\
  (has_session (env_tmux env) session = inr true ->
     deliveries (trace (runNudge env target message)) =
       [SendLiteralText session text; SettleDelay 500; SendKeyEnter session] /\
     returned (runNudge env target message) =
       match send_literal_text (env_tmux env) session text with
       | Some e => Some (ErrWrap nudging e)
       | None =>
           match send_key_enter (env_tmux env) session with
           | Some e => Some (ErrWrap nudging e)
           | None => None
           end
       end) /\
  (forall e, has_session (env_tmux env) session = inl e ->
     runNudge env target message =
       ([HasSessionQuery session], inl (ErrWrap checking e))).
Proof.
  intros Hc deacon session text nudging checking.
  subst deacon session text nudging checking.
  split; [|split].
  - unfold runNudge. destruct (target =? "deacon"); [|rewrite Hc];
      nudge_cases; try congruence; reflexivity.
  - intro Hs. unfold runNudge.
    destruct (target =? "deacon"); [|rewrite Hc];
      unfold HasSession, call; rewrite Hs;
      nudge_cases; try congruence; split; first [reflexivity | congruence].
  - intros e He. unfold runNudge.
    destruct (target =? "deacon"); [|rewrite Hc];
      unfold HasSession, call; rewrite He; reflexivity.
Qed.

Lemma runNudge_named_session_witness :
  let t := {| has_session := fun s => inr (s =? "gt-deacon");
              send_literal_text := fun _ _ => None;
              send_key_enter := fun _ => Some (ErrNew "can't find pane");
              send_notification_banner := fun _ _ _ => None |} in
  let env := {| env_tmux := t;
                GetRole := inr {| role_Role := RoleWitness; role_Rig := "gastown";
                                  role_Polecat := "" |};
                FindFromCwdOrError := inr "/town";
                FindFromCwd := ("/town", None);
                GetRig := fun _ name => inl (ErrRigNotFound name);
                SessionName := fun _ polecat => "gt-" ++ polecat;
                crewSessionName := fun rigName crew => "gt-" ++ rigName ++ "-crew-" ++ crew |} in
  deliveries (trace (runNudge env "deacon" "session-started")) =
    [SendLiteralText "gt-deacon" "[from gastown/witness] session-started";
     SettleDelay 500;
     SendKeyEnter "gt-deacon"] /\
  returned (runNudge env "deacon" "session-started") =
    Some (ErrWrap "nudging deacon" (ErrNew "can't find pane")).
Proof.
  intros t env.
  destruct (runNudge_named_session env "deacon" "session-started" eq_refl)
    as (_ & H & _).
  exact (H eq_refl).
Defined.
